(** * PageRank: a shallow embedding of [pagerank.py]

    The ranking engine of the repository is embedded function by function:
    [normalize], [transition_model], [sample_pagerank] and
    [iterate_pagerank], together with the two loops of [crawl].

    Modelling conventions.
    - Python numbers are exact rationals ([Qc], the canonical fractions of
      the Standard Library).  Rounding of binary floating point is
      abstracted away, so an identity such as "the values sum to 1" is read
      as an identity of rationals.  A property whose truth depends on
      rounding (which page a draw just below 1 selects, whether sums taken
      in two orders agree to the last bit) is outside the model and is not
      stated.  An [int] count enters the rationals through [Qc_of_nat], as
      [int / int] does in Python.
    - A [dict] is an association list in insertion order: the cumulative
      scan of [sample_pagerank] depends on that order.  A Python dict never
      holds a key twice, which is [dict_wf].
    - A [set] of pages is a [gset string].  The order in which Python
      enumerates a set is unspecified; it is the [enum] of a [SetOrder].
    - Exceptions are the left summand of [result].
    - The [while True] loop of [iterate_pagerank] takes fuel; [None] means
      that the fuel ran out, never that the program raised.
    - The module [random] is the class [RandomSource]: the generator state
      is passed explicitly. *)

From Stdlib Require Import QArith Qcanon Qcabs.
From stdpp Require Import base numbers list strings gmap sets.

#[local] Set Warnings "-clear-no-such-hyp".

Local Open Scope string_scope.
Local Open Scope Qc_scope.
Local Open Scope list_scope.

(** ** Exceptions *)

Inductive exn : Type :=
  | KeyError (key : string)
  | IndexError
  | ZeroDivisionError
  | ValueError.

#[global] Instance exn_eq_dec : EqDecision exn.
Proof. solve_decision. Defined.

Definition result (A : Type) : Type := exn + A.

Definition raise {A : Type} (e : exn) : result A := inl e.

#[global] Instance result_ret : MRet result := λ A a, inr a.

#[global] Instance result_bind : MBind result := λ A B f m,
  match m with
  | inl e => inl e
  | inr a => f a
  end.

(** [for x in xs: body], with the loop state threaded through. *)
Fixpoint for_each {A S : Type} (xs : list A) (body : S → A → result S)
    (s : S) : result S :=
  match xs with
  | [] => mret s
  | x :: xs' => s' ← body s x; for_each xs' body s'
  end.

(** ** Numbers *)

Definition Qc_of_nat (n : nat) : Qc := Qc_of_Z (Z.of_nat n).

(** [x / y], which raises on a zero divisor. *)
Definition pydiv (x y : Qc) : result Qc :=
  if decide (y = 0) then raise ZeroDivisionError else mret (x / y).

(** ** Dictionaries *)

Definition dict (V : Type) : Type := list (string * V).

Definition keys {V : Type} (d : dict V) : list string := d.*1.

Definition values {V : Type} (d : dict V) : list V := d.*2.

Definition dict_wf {V : Type} (d : dict V) : Prop := NoDup (keys d).

(** [d[k]] *)
Fixpoint dict_get {V : Type} (d : dict V) (k : string) : result V :=
  match d with
  | [] => raise (KeyError k)
  | (k', v) :: d' => if decide (k' = k) then mret v else dict_get d' k
  end.

(** [d[k] = v]: overwrite in place, or append a new key. *)
Fixpoint dict_set {V : Type} (d : dict V) (k : string) (v : V) : dict V :=
  match d with
  | [] => [(k, v)]
  | (k', v') :: d' =>
      if decide (k' = k) then (k, v) :: d' else (k', v') :: dict_set d' k v
  end.

(** [k in d] *)
Definition dict_mem {V : Type} (d : dict V) (k : string) : bool :=
  bool_decide (k ∈ keys d).

(** [d.update(other)] *)
Definition dict_update {V : Type} (d other : dict V) : dict V :=
  foldl (λ acc kv, dict_set acc kv.1 kv.2) d other.

(** [{k: f(k) for k in ks}] *)
Definition dict_comprehension {V : Type} (ks : list string) (f : string → V)
    : dict V :=
  foldl (λ acc k, dict_set acc k (f k)) [] ks.

(** The value at a key that is known to be present. *)
Definition rank_of (ranks : dict Qc) (p : string) : Qc :=
  match dict_get ranks p with
  | inr r => r
  | inl _ => 0
  end.

Definition links_of (corpus : dict (gset string)) (p : string) : gset string :=
  match dict_get corpus p with
  | inr s => s
  | inl _ => ∅
  end.

(** [sum(xs)]: left to right, from 0. *)
Definition sum (xs : list Qc) : Qc := foldl Qcplus 0 xs.

(** ** The corpus *)

Definition corpus_t : Type := dict (gset string).

(** ** normalize *)

Definition normalize (d : dict Qc) : result (dict Qc) :=
  let total := sum (values d) in
  for_each (keys d)
    (λ result key,
       v ← dict_get d key;
       q ← pydiv v total;
       mret (dict_set result key (q * Qc_of_nat 100)))
    [].

(** ** transition_model *)

Definition transition_model (corpus : corpus_t) (page : string)
    (damping_factor : Qc) : result (dict Qc) :=
  let corpus_total_pages_count := length corpus in
  pages ← dict_get corpus page;
  let random_transition_probabilities := 1 - damping_factor in
  random_transition_probability ←
    pydiv random_transition_probabilities (Qc_of_nat corpus_total_pages_count);
  let current_page_links := size pages in
  let free_probabilities := 1 - random_transition_probabilities in
  rank_per_page ←
    (if decide (0 < current_page_links)%nat
     then pydiv free_probabilities (Qc_of_nat current_page_links)
     else mret 0);
  for_each (keys corpus)
    (λ result name,
       let rank := random_transition_probability in
       let rank := if decide (name ∈ pages) then rank + rank_per_page else rank in
       mret (dict_set result name rank))
    [].

(** ** The random source

    [next_below n] is an integer below [n] and [next_unit] is
    [random.random()], a number of the interval [0, 1); both return the
    next state of the generator. *)

Class RandomSource (G : Type) : Type := {
  next_below : nat → G → nat * G;
  next_unit : G → Qc * G;
  next_below_lt (n : nat) (g : G) : (0 < n)%nat → ((next_below n g).1 < n)%nat;
  next_unit_range (g : G) : 0 ≤ (next_unit g).1 ∧ (next_unit g).1 < 1;
}.

(** [random.randrange(start, stop)] raises on an empty range. *)
Definition randrange `{RandomSource G} (start stop : nat) (g : G)
    : result (nat * G) :=
  if decide (start < stop)%nat
  then let '(i, g') := next_below (stop - start) g in mret ((start + i)%nat, g')
  else raise ValueError.

(** [random.uniform(a, b)] is [a + (b - a) * random()]. *)
Definition uniform `{RandomSource G} (a b : Qc) (g : G) : Qc * G :=
  let '(r, g') := next_unit g in (a + (b - a) * r, g').

(** [xs[i]] *)
Definition list_get {A : Type} (xs : list A) (i : nat) : result A :=
  match xs !! i with
  | Some x => mret x
  | None => raise IndexError
  end.

(** ** sample_pagerank *)

(** The inner loop [for key in result]: the page at which [rnd] goes
    non-positive, if there is one ([break]); [None] when the loop runs to
    its end without selecting. *)
Fixpoint scan (distribution : dict Qc) (ks : list string) (rnd : Qc)
    : result (option string) :=
  match ks with
  | [] => mret None
  | key :: ks' =>
      p ← dict_get distribution key;
      let rnd := rnd - p in
      if decide (rnd ≤ 0) then mret (Some key) else scan distribution ks' rnd
  end.

(** The state of the sampling loop: current page, visit counters and
    generator. *)
Record sampler (G : Type) : Type := Sampler {
  s_page : string;
  s_samples : dict nat;
  s_rng : G;
}.
Arguments Sampler {G} _ _ _.
Arguments s_page {G} _.
Arguments s_samples {G} _.
Arguments s_rng {G} _.

(** One iteration of [for i in range(n)]. *)
Definition sample_step `{RandomSource G} (corpus : corpus_t)
    (damping_factor : Qc) (st : sampler G) (i : nat) : result (sampler G) :=
  result ← transition_model corpus (s_page st) damping_factor;
  let '(rnd, g) := uniform 0 1 (s_rng st) in
  selected ← scan result (keys result) rnd;
  match selected with
  | Some key =>
      c ← dict_get (s_samples st) key;
      mret (Sampler key (dict_set (s_samples st) key (c + 1)%nat) g)
  | None => mret (Sampler (s_page st) (s_samples st) g)
  end.

(** The sampling loop, up to but not including the final [normalize]. *)
Definition sample_loop `{RandomSource G} (corpus : corpus_t)
    (damping_factor : Qc) (n : nat) (g : G) : result (sampler G) :=
  '(index, g) ← randrange 0 (length corpus) g;
  let pages := keys corpus in
  page ← list_get pages index;
  let samples := dict_comprehension pages (λ _, 0%nat) in
  for_each (seq 0 n) (sample_step corpus damping_factor)
    (Sampler page samples g).

(** The counters as numbers: [int / int] is true division. *)
Definition counts (samples : dict nat) : dict Qc :=
  prod_map id Qc_of_nat <$> samples.

Definition sample_pagerank `{RandomSource G} (corpus : corpus_t)
    (damping_factor : Qc) (n : nat) (g : G) : result (dict Qc) :=
  st ← sample_loop corpus damping_factor n g;
  normalize (counts (s_samples st)).

(** ** iterate_pagerank *)

(** The order in which a set is enumerated by [for x in s]. *)
Class SetOrder : Type := {
  enum : gset string → list string;
  enum_perm (s : gset string) : enum s ≡ₚ elements s;
}.

Definition precision : Qc := Q2Qc (1 # 1000).

Section Iterate.
Context `{SetOrder}.

(** [inbound_links[link].add(page)], guarded by [if link in inbound_links]. *)
Definition add_inbound (page : string) (inbound_links : dict (gset string))
    (link : string) : result (dict (gset string)) :=
  if dict_mem inbound_links link
  then s ← dict_get inbound_links link;
       mret (dict_set inbound_links link (s ∪ {[page]}))
  else mret inbound_links.

(** The inbound-link index, lines 128 to 132. *)
Definition build_inbound (corpus : corpus_t) : result (dict (gset string)) :=
  let inbound_links := dict_comprehension (keys corpus) (λ _, (∅ : gset string)) in
  for_each (keys corpus)
    (λ inbound_links page,
       links ← dict_get corpus page;
       for_each (enum links) (add_inbound page) inbound_links)
    inbound_links.

(** The loop [for linking_page in inbound_links[page]]. *)
Definition inbound_acc (corpus : corpus_t) (ranks : dict Qc)
    (linking : list string) : result Qc :=
  for_each linking
    (λ acc linking_page,
       r ← dict_get ranks linking_page;
       links ← dict_get corpus linking_page;
       c ← pydiv r (Qc_of_nat (size links));
       mret (acc + c))
    0.

(** The body of [for page in pages]; the loop state is [ranks_update]
    and [changed]. *)
Definition round_page (corpus : corpus_t) (damping_factor k : Qc)
    (inbound_links : dict (gset string)) (ranks : dict Qc)
    (st : dict Qc * bool) (page : string) : result (dict Qc * bool) :=
  let '(ranks_update, changed) := st in
  linking ← dict_get inbound_links page;
  acc ← inbound_acc corpus ranks (enum linking);
  let update := k + damping_factor * acc in
  prev ← dict_get ranks page;
  let diff := prev - update in
  if decide (precision < Qcabs diff)
  then mret (dict_set ranks_update page update, true)
  else mret (ranks_update, changed).

(** One pass of the [while True] body up to the test of [changed]. *)
Definition round (corpus : corpus_t) (damping_factor k : Qc)
    (inbound_links : dict (gset string)) (ranks : dict Qc)
    : result (dict Qc * bool) :=
  for_each (keys corpus)
    (round_page corpus damping_factor k inbound_links ranks) ([], false).

(** [while True]: [None] when the fuel is used up. *)
Fixpoint iterate_loop (fuel : nat) (corpus : corpus_t) (damping_factor k : Qc)
    (inbound_links : dict (gset string)) (ranks : dict Qc)
    : option (result (dict Qc)) :=
  match fuel with
  | O => None
  | S fuel' =>
      match round corpus damping_factor k inbound_links ranks with
      | inl e => Some (raise e)
      | inr (ranks_update, changed) =>
          if changed
          then iterate_loop fuel' corpus damping_factor k inbound_links
                 (dict_update ranks ranks_update)
          else Some (mret ranks)
      end
  end.

(** Lines 123 to 134: everything before the loop. *)
Definition iterate_init (corpus : corpus_t) (damping_factor : Qc)
    : result (dict Qc * dict (gset string) * Qc) :=
  let pages := keys corpus in
  let pages_count := length pages in
  initial ← pydiv 1 (Qc_of_nat pages_count);
  let ranks := dict_comprehension (keys corpus) (λ _, initial) in
  inbound_links ← build_inbound corpus;
  k ← pydiv (1 - damping_factor) (Qc_of_nat pages_count);
  mret (ranks, inbound_links, k).

Definition iterate_pagerank (fuel : nat) (corpus : corpus_t)
    (damping_factor : Qc) : option (result (dict Qc)) :=
  match iterate_init corpus damping_factor with
  | inl e => Some (raise e)
  | inr (ranks, inbound_links, k) =>
      match iterate_loop fuel corpus damping_factor k inbound_links ranks with
      | None => None
      | Some (inl e) => Some (raise e)
      | Some (inr ranks) => Some (normalize ranks)
      end
  end.
End Iterate.

(** ** crawl

    The directory is the list of its entries, file name and contents, in
    the order in which [os.listdir] gives them.  [findall contents] stands
    for [re.findall(r"<a\s+(?:[^>]*?)href=...", contents)], the targets of
    the links of a file; the regular-expression engine is not modelled. *)

(** [s.endswith(suffix)] *)
Definition endswith (s suffix : string) : bool :=
  bool_decide (String.length suffix ≤ String.length s)%nat
  && bool_decide (String.substring (String.length s - String.length suffix)
                    (String.length suffix) s = suffix).

Section Crawl.
Variable findall : string → list string.

(** The first loop: the links of every [.html] file, without the file
    itself. *)
Definition crawl_extract (directory : list (string * string)) : corpus_t :=
  foldl (λ pages entry,
           let '(filename, contents) := entry in
           if endswith filename ".html"
           then let links := findall contents in
                dict_set pages filename (list_to_set links ∖ {[filename]})
           else pages)
    [] directory.

(** The second loop: only the links to other pages of the corpus are
    kept. *)
Definition crawl_restrict (pages : corpus_t) : result corpus_t :=
  for_each (keys pages)
    (λ pages filename,
       links ← dict_get pages filename;
       mret (dict_set pages filename
               (filter (λ link, dict_mem pages link = true) links)))
    pages.

Definition crawl (directory : list (string * string)) : result corpus_t :=
  crawl_restrict (crawl_extract directory).
End Crawl.

(** ** The formulas of the specification

    These definitions follow the words of the specification, not the code;
    the theorems below compare them with the code. *)

(** Transition Model: [(1-d)/N + d/|links(p)|] for a page that [p] links
    to, and [(1-d)/N] for any other page. *)
Definition spec_transition (corpus : corpus_t) (links : gset string)
    (d : Qc) (page : string) : Qc :=
  if decide (page ∈ links)
  then (1 - d) / Qc_of_nat (length corpus) + d / Qc_of_nat (size links)
  else (1 - d) / Qc_of_nat (length corpus).

(** Iterative Solver.  [inbound corpus p] are the pages that link to [p]. *)
Definition inbound (corpus : corpus_t) (p : string) : list string :=
  filter (λ q, p ∈ links_of corpus q) (keys corpus).

(** The update rule:
    [(1-d)/N + d * Σ over q in inbound(p) of rank(q)/|links(q)|]. *)
Definition spec_update (corpus : corpus_t) (d : Qc) (ranks : dict Qc)
    (p : string) : Qc :=
  (1 - d) / Qc_of_nat (length corpus)
  + d * sum ((λ q, rank_of ranks q / Qc_of_nat (size (links_of corpus q)))
               <$> inbound corpus p).

(** The absolute change exceeds the threshold 0.001. *)
Definition exceeds (prev update : Qc) : Prop :=
  precision < Qcabs (prev - update).

#[global] Instance exceeds_dec (prev update : Qc) : Decision (exceeds prev update).
Proof. unfold exceeds. apply _. Defined.

(** One synchronous round: every candidate is computed from the ranks of
    the previous round, and is committed only when the change exceeds the
    threshold.  The flag tells whether some page committed. *)
Definition spec_round (corpus : corpus_t) (d : Qc) (ranks : dict Qc)
    : dict Qc * bool :=
  ((λ p, (p, if decide (exceeds (rank_of ranks p) (spec_update corpus d ranks p))
             then spec_update corpus d ranks p
             else rank_of ranks p)) <$> keys corpus,
   bool_decide
     (Exists (λ p, exceeds (rank_of ranks p) (spec_update corpus d ranks p))
        (keys corpus))).

(** Rounds are repeated until one commits nothing. *)
Fixpoint spec_rounds (fuel : nat) (corpus : corpus_t) (d : Qc)
    (ranks : dict Qc) : option (dict Qc) :=
  match fuel with
  | O => None
  | S fuel' =>
      let '(ranks', committed) := spec_round corpus d ranks in
      if committed then spec_rounds fuel' corpus d ranks' else Some ranks
  end.

(** Every rank starts at [1/N]. *)
Definition spec_initial (corpus : corpus_t) : dict Qc :=
  (λ p, (p, 1 / Qc_of_nat (length corpus))) <$> keys corpus.

(** The corpus without the links whose target is not one of its keys. *)
Definition drop_foreign_links (corpus : corpus_t) : corpus_t :=
  prod_map id (filter (λ link, link ∈ keys corpus)) <$> corpus.

(** The sum of the visit counters. *)
Definition total_visits (samples : dict nat) : nat := sum_list (values samples).

(** Every rank is positive. *)
Definition all_pos (ranks : dict Qc) : Prop := Forall (λ v, 0 < v) (values ranks).

(** The distribution that gives every page [100/N]. *)
Definition uniform_percent (corpus : corpus_t) : dict Qc :=
  (λ p, (p, Qc_of_nat 100 / Qc_of_nat (length corpus))) <$> keys corpus.

(** Every page receives one page's worth of links: the shares [1/|links(q)|]
    of the pages [q] that link to it add up to 1. *)
Definition balanced (corpus : corpus_t) : Prop :=
  Forall (λ p, sum ((λ q, 1 / Qc_of_nat (size (links_of corpus q)))
                      <$> inbound corpus p) = 1)
    (keys corpus).

(** Every link target is a page of the corpus. *)
Definition links_closed (corpus : corpus_t) : Prop :=
  ∀ p link, link ∈ links_of corpus p → link ∈ keys corpus.

(** ** Concrete instances, for evaluation *)

(** Sets enumerated in the order of [elements]. *)
#[global] Instance elements_order : SetOrder :=
  {| enum := elements; enum_perm := λ s, reflexivity (elements s) |}.

(** A generator that reads its outcomes from a tape.  An integer is
    reduced modulo the bound, a number outside [0, 1) reads as 0, and an
    exhausted tape reads as 0. *)
Record tape : Type := Tape {
  tape_ints : list nat;
  tape_units : list Qc;
}.

Definition tape_below (n : nat) (g : tape) : nat * tape :=
  match tape_ints g with
  | [] => (0%nat, g)
  | i :: rest => ((i mod n)%nat, Tape rest (tape_units g))
  end.

Definition in_unit (u : Qc) : Qc :=
  if decide (0 ≤ u) then if decide (u < 1) then u else 0 else 0.

Definition tape_unit (g : tape) : Qc * tape :=
  match tape_units g with
  | [] => (0, g)
  | u :: us => (in_unit u, Tape (tape_ints g) us)
  end.

#[global, program] Instance tape_source : RandomSource tape :=
  {| next_below := tape_below; next_unit := tape_unit |}.
Next Obligation.
  intros n g Hn. unfold tape_below. destruct (tape_ints g) as [|i rest]; simpl.
  - exact Hn.
  - apply Nat.mod_upper_bound. lia.
Qed.
Next Obligation.
  intros g. unfold tape_unit, in_unit.
  destruct (tape_units g) as [|u us]; simpl; repeat case_decide; auto; split; done.
Qed.

(** Literals and the corpora of the concrete scenarios. *)
Definition q (n : Z) (d : positive) : Qc := Q2Qc (n # d).

Definition corpus1 : corpus_t := [("A", ∅)].
Definition corpus3 : corpus_t :=
  [("A", {["B"]}); ("B", {["A"; "C"]}); ("C", {["A"]})].
(** Three pages, each linking to the two others. *)
Definition corpus_complete : corpus_t :=
  [("A", {["B"; "C"]}); ("B", {["A"; "C"]}); ("C", {["A"; "B"]})].
(** A mapping with a link to [X], which is not one of its keys. *)
Definition corpus_foreign : corpus_t :=
  [("A", {["B"; "X"]}); ("B", {["A"]})].

(** * Properties *)

(** ** Loops *)

Lemma for_each_app {A S : Type} (xs ys : list A) (body : S → A → result S) (s : S) :
  for_each (xs ++ ys) body s = (s' ← for_each xs body s; for_each ys body s').
Proof.
  revert s. induction xs as [|x xs IH]; intros s; simpl; [done|].
  destruct (body s x) as [e|s']; simpl; [done|]. apply IH.
Qed.

Lemma for_each_pure {A S : Type} (xs : list A) (f : S → A → S) (s : S) :
  for_each xs (λ s x, mret (f s x)) s = mret (foldl f s xs).
Proof. revert s. induction xs as [|x xs IH]; intros s; simpl; [done|apply IH]. Qed.

Lemma for_each_ext {A S : Type} (xs : list A) (body1 body2 : S → A → result S) (s : S) :
  (∀ s x, x ∈ xs → body1 s x = body2 s x) →
  for_each xs body1 s = for_each xs body2 s.
Proof.
  revert s. induction xs as [|x xs IH]; intros s Hb; simpl; [done|].
  rewrite (Hb s x) by set_solver.
  destruct (body2 s x) as [e|s']; simpl; [done|]. apply IH.
  intros s0 y Hy. apply Hb. set_solver.
Qed.

(** ** Dictionaries *)

Section dict_facts.
Context {V : Type}.
Implicit Types (d : dict V) (k : string) (v : V).

Lemma dict_get_inr d k v : dict_get d k = inr v → (k, v) ∈ d.
Proof.
  induction d as [|[k' v'] d IH]; simpl; [done|].
  case_decide as Hk; [|set_solver].
  intros [= ->]. subst. set_solver.
Qed.

Lemma dict_get_notin d k : k ∉ keys d → dict_get d k = raise (KeyError k).
Proof.
  induction d as [|[k' v'] d IH]; simpl; [done|].
  intros Hk. case_decide; [set_solver|]. apply IH. set_solver.
Qed.

Lemma dict_get_in d k : k ∈ keys d → ∃ v, dict_get d k = inr v.
Proof.
  induction d as [|[k' v'] d IH]; simpl; [set_solver|].
  intros Hk. case_decide; [by eexists|]. apply IH. set_solver.
Qed.

Lemma dict_get_inl d k e : dict_get d k = inl e → e = KeyError k ∧ k ∉ keys d.
Proof.
  induction d as [|[k' v'] d IH]; simpl.
  - intros [= <-]. split; [done|set_solver].
  - case_decide; [done|]. intros [-> Hk]%IH. split; [done|set_solver].
Qed.

Lemma dict_get_elem d k v : dict_wf d → (k, v) ∈ d → dict_get d k = inr v.
Proof.
  unfold dict_wf, keys. induction d as [|[k' v'] d IH]; simpl; [set_solver|].
  intros [Hk' Hd]%NoDup_cons [[= -> ->]|Hin]%elem_of_cons.
  - by rewrite decide_True.
  - rewrite decide_False; [by apply IH|].
    intros ->. apply Hk'. apply list_elem_of_fmap. by exists (k, v).
Qed.

Lemma dict_set_notin d k v : k ∉ keys d → dict_set d k v = d ++ [(k, v)].
Proof.
  induction d as [|[k' v'] d IH]; simpl; [done|].
  intros Hk. case_decide; [set_solver|]. f_equal. apply IH. set_solver.
Qed.

Lemma keys_dict_set_in d k v : k ∈ keys d → keys (dict_set d k v) = keys d.
Proof.
  induction d as [|[k' v'] d IH]; simpl; [set_solver|].
  intros Hk. case_decide; simpl; [by subst|]. f_equal. apply IH. set_solver.
Qed.

Lemma dict_get_set d k v k' :
  dict_get (dict_set d k v) k' = if decide (k = k') then inr v else dict_get d k'.
Proof.
  induction d as [|[k0 v0] d IH]; simpl.
  - repeat case_decide; done.
  - repeat (case_decide; simpl; subst); try done; try congruence.
Qed.

Lemma dict_comprehension_acc (ks : list string) (f : string → V) d :
  NoDup (keys d ++ ks) →
  foldl (λ acc k, dict_set acc k (f k)) d ks = d ++ ((λ k, (k, f k)) <$> ks).
Proof.
  revert d. induction ks as [|k ks IH]; intros d Hnd; simpl.
  - by rewrite app_nil_r.
  - apply NoDup_app in Hnd as (Hd & Hdis & Hks).
    apply NoDup_cons in Hks as [Hk Hks].
    rewrite dict_set_notin by (intros Hin; apply (Hdis _ Hin); set_solver).
    rewrite IH, <-app_assoc; [done|].
    unfold keys. rewrite fmap_app. simpl. rewrite <-app_assoc. simpl.
    apply NoDup_app. split_and!; [done| |by apply NoDup_cons].
    intros x Hx. apply Hdis in Hx. done.
Qed.

Lemma dict_comprehension_fmap (ks : list string) (f : string → V) :
  NoDup ks → dict_comprehension ks f = (λ k, (k, f k)) <$> ks.
Proof. intros Hnd. unfold dict_comprehension. by rewrite dict_comprehension_acc. Qed.

Lemma keys_tabulate (ks : list string) (f : string → V) :
  keys ((λ k, (k, f k)) <$> ks) = ks.
Proof.
  unfold keys. induction ks as [|k ks IH]; simpl; [done|]. by f_equal.
Qed.

Lemma dict_get_tabulate (ks : list string) (f : string → V) k :
  k ∈ ks → dict_get ((λ k, (k, f k)) <$> ks) k = inr (f k).
Proof.
  induction ks as [|k' ks IH]; simpl; [set_solver|].
  intros Hk. case_decide; [by subst|]. apply IH. set_solver.
Qed.

Lemma dict_ext d1 d2 :
  keys d1 = keys d2 → dict_wf d1 →
  (∀ k, k ∈ keys d1 → dict_get d1 k = dict_get d2 k) → d1 = d2.
Proof.
  unfold dict_wf, keys. revert d2.
  induction d1 as [|[k1 v1] d1 IH]; intros [|[k2 v2] d2]; simpl; try done.
  intros [= -> Hk] [Hk2 Hnd]%NoDup_cons Hget.
  assert (v1 = v2) as ->.
  { specialize (Hget k2). rewrite !decide_True in Hget by done.
    assert (inr v1 = inr v2 :> result V) as [= ->] by (apply Hget; set_solver).
    done. }
  f_equal. apply IH; [done..|].
  intros k Hin. specialize (Hget k).
  rewrite !decide_False in Hget by (intros ->; done).
  apply Hget. set_solver.
Qed.
End dict_facts.

(** ** Numbers *)

Lemma Qc_of_nat_S (n : nat) : Qc_of_nat (S n) = Qc_of_nat n + 1.
Proof.
  unfold Qc_of_nat. rewrite Nat2Z.inj_succ, <-Z.add_1_r, Z2Qc_inj_add.
  by rewrite Z2Qc_inj_1.
Qed.

Lemma Qc_of_nat_0 : Qc_of_nat 0 = 0.
Proof. apply Z2Qc_inj_0. Qed.

Lemma Qc_of_nat_pos (n : nat) : (0 < n)%nat → 0 < Qc_of_nat n.
Proof.
  intros Hn. unfold Qc_of_nat. rewrite <-Z2Qc_inj_0.
  apply (proj1 (Z2Qc_inj_lt 0 (Z.of_nat n))). lia.
Qed.

Lemma Qc_of_nat_nonzero (n : nat) : (0 < n)%nat → Qc_of_nat n ≠ 0.
Proof. intros Hn%Qc_of_nat_pos Heq. apply (Qclt_not_eq _ _ Hn). by rewrite Heq. Qed.

Lemma Qc_of_nat_zero_inv (n : nat) : Qc_of_nat n = 0 → n = 0%nat.
Proof.
  intros Heq. destruct n as [|n]; [done|].
  by apply (Qc_of_nat_nonzero (S n)) in Heq; [|lia].
Qed.

Lemma pydiv_ok (x y : Qc) : y ≠ 0 → pydiv x y = inr (x / y).
Proof. intros Hy. unfold pydiv. by rewrite decide_False. Qed.

Lemma pydiv_zero (x : Qc) : pydiv x 0 = raise ZeroDivisionError.
Proof. unfold pydiv. by rewrite decide_True. Qed.

(** ** Sums *)

Lemma foldl_Qcplus (a : Qc) (xs : list Qc) : foldl Qcplus a xs = a + sum xs.
Proof.
  unfold sum. revert a. induction xs as [|x xs IH]; intros a; simpl.
  - ring.
  - rewrite (IH (a + x)), (IH (0 + x)). ring.
Qed.

Lemma sum_nil : sum [] = 0.
Proof. done. Qed.

Lemma sum_cons (x : Qc) (xs : list Qc) : sum (x :: xs) = x + sum xs.
Proof. unfold sum at 1. simpl. rewrite foldl_Qcplus. ring. Qed.

Lemma sum_app (xs ys : list Qc) : sum (xs ++ ys) = sum xs + sum ys.
Proof.
  induction xs as [|x xs IH]; simpl.
  - rewrite sum_nil. ring.
  - rewrite !sum_cons, IH. ring.
Qed.

Lemma sum_perm (xs ys : list Qc) : xs ≡ₚ ys → sum xs = sum ys.
Proof.
  induction 1 as [|x xs ys _ IH|x y xs|xs ys zs _ IH1 _ IH2].
  - done.
  - by rewrite !sum_cons, IH.
  - rewrite !sum_cons. ring.
  - congruence.
Qed.

Lemma sum_scale {A : Type} (f : A → Qc) (c : Qc) (xs : list A) :
  sum ((λ x, f x * c) <$> xs) = sum (f <$> xs) * c.
Proof.
  induction xs as [|x xs IH]; csimpl.
  - rewrite sum_nil. ring.
  - rewrite !sum_cons, IH. ring.
Qed.

Lemma sum_nonneg (xs : list Qc) : Forall (λ x, 0 ≤ x) xs → 0 ≤ sum xs.
Proof.
  induction 1 as [|x xs Hx _ IH]; [done|].
  rewrite sum_cons. by apply Qcplus_nonneg_nonneg.
Qed.

Lemma sum_pos (xs : list Qc) : xs ≠ [] → Forall (λ x, 0 < x) xs → 0 < sum xs.
Proof.
  intros Hne Hall. destruct Hall as [|x xs Hx Hxs]; [done|].
  rewrite sum_cons. apply Qcplus_pos_nonneg; [done|].
  apply sum_nonneg. eapply Forall_impl; [done|]. intros. by apply Qclt_le_weak.
Qed.

(** The sum of a distribution that gives [a + b] to the members of a set
    and [a] to the others. *)
Lemma sum_indicator (s : gset string) (a b : Qc) (ks : list string) :
  sum ((λ k, if decide (k ∈ s) then a + b else a) <$> ks)
  = Qc_of_nat (length ks) * a + Qc_of_nat (length (filter (.∈ s) ks)) * b.
Proof.
  induction ks as [|k ks IH]; csimpl.
  - rewrite sum_nil, Qc_of_nat_0. ring.
  - rewrite sum_cons, IH, filter_cons, Qc_of_nat_S.
    case_decide; simpl; rewrite ?Qc_of_nat_S; ring.
Qed.

Lemma filter_elem_of_length (s : gset string) (ks : list string) :
  NoDup ks → (∀ k, k ∈ s → k ∈ ks) → length (filter (.∈ s) ks) = size s.
Proof.
  intros Hnd Hsub. unfold size, set_size. simpl. apply Permutation_length.
  apply NoDup_Permutation; [by apply NoDup_filter|apply NoDup_elements|].
  intros k. rewrite list_elem_of_filter, elem_of_elements. naive_solver.
Qed.

(** ** Loops that fill a dictionary *)

Lemma for_each_tabulate {W : Type} (ks : list string)
    (body : dict W → string → result (dict W)) (f : string → W) (acc : dict W) :
  (∀ acc k, k ∈ ks → body acc k = mret (dict_set acc k (f k))) →
  NoDup (keys acc ++ ks) →
  for_each ks body acc = inr (acc ++ ((λ k, (k, f k)) <$> ks)).
Proof.
  intros Hb Hnd.
  rewrite (for_each_ext _ _ (λ acc k, mret (dict_set acc k (f k)))) by done.
  rewrite for_each_pure. unfold mret, result_ret. f_equal.
  by apply dict_comprehension_acc.
Qed.

Lemma values_tabulate {W : Type} (ks : list string) (f : string → W) :
  values ((λ k, (k, f k)) <$> ks) = f <$> ks.
Proof. unfold values. induction ks as [|k ks IH]; csimpl; [done|]. by f_equal. Qed.

Lemma rank_of_get (d : dict Qc) (k : string) :
  k ∈ keys d → dict_get d k = inr (rank_of d k).
Proof. intros [v Hv]%dict_get_in. unfold rank_of. by rewrite Hv. Qed.

Lemma rank_of_keys (d : dict Qc) : dict_wf d → rank_of d <$> keys d = values d.
Proof.
  unfold dict_wf, keys, values, rank_of. induction d as [|[k v] d IH]; csimpl; [done|].
  intros [Hk Hnd]%NoDup_cons. rewrite decide_True by done. f_equal.
  rewrite <-IH by done. apply list_fmap_ext. intros i k' Hk'.
  rewrite decide_False; [done|]. intros ->. apply Hk.
  by eapply list_elem_of_lookup_2.
Qed.

(** ** normalize *)

Lemma normalize_ok (d : dict Qc) :
  dict_wf d → sum (values d) ≠ 0 →
  normalize d
  = inr ((λ k, (k, rank_of d k / sum (values d) * Qc_of_nat 100)) <$> keys d).
Proof.
  intros Hwf Ht. unfold normalize.
  rewrite (for_each_tabulate _ _
    (λ k, rank_of d k / sum (values d) * Qc_of_nat 100)); [done| |done].
  intros acc k Hk. rewrite (rank_of_get d k Hk). simpl. by rewrite pydiv_ok.
Qed.

Lemma normalize_nil : normalize [] = inr [].
Proof. done. Qed.

Lemma normalize_zero (d : dict Qc) :
  d ≠ [] → sum (values d) = 0 → normalize d = raise ZeroDivisionError.
Proof.
  intros Hne Ht. unfold normalize. rewrite Ht.
  destruct d as [|[k v] d]; [done|].
  change (keys ((k, v) :: d)) with (k :: keys d). cbn [for_each dict_get].
  rewrite decide_True by done. cbn [mbind result_bind mret result_ret].
  by rewrite pydiv_zero.
Qed.

Lemma normalize_sum (d : dict Qc) (r : dict Qc) :
  dict_wf d → sum (values d) ≠ 0 → normalize d = inr r →
  sum (values r) = Qc_of_nat 100.
Proof.
  intros Hwf Ht. rewrite normalize_ok by done. intros [= <-].
  rewrite values_tabulate.
  rewrite (list_fmap_ext _ (λ k, rank_of d k * (/ sum (values d) * Qc_of_nat 100)) (keys d))
    by (intros; unfold Qcdiv; ring).
  rewrite sum_scale, rank_of_keys by done. by field.
Qed.

(** ** transition_model *)

Lemma dict_get_length {W : Type} (d : dict W) (k : string) (w : W) :
  dict_get d k = inr w → (0 < length d)%nat.
Proof. destruct d; simpl; [done|lia]. Qed.

Lemma transition_model_ok (corpus : corpus_t) (page : string) (d : Qc)
    (links : gset string) :
  dict_wf corpus → dict_get corpus page = inr links →
  transition_model corpus page d
  = inr ((λ name, (name, spec_transition corpus links d name)) <$> keys corpus).
Proof.
  intros Hwf Hget. unfold transition_model. rewrite Hget.
  cbn [mbind result_bind].
  rewrite (pydiv_ok _ (Qc_of_nat (length corpus)))
    by (eapply Qc_of_nat_nonzero, dict_get_length; done).
  cbn [mbind result_bind].
  set (rank_per_page := if decide (0 < size links)%nat
                        then (1 - (1 - d)) / Qc_of_nat (size links) else 0).
  assert ((if decide (0 < size links)%nat
           then pydiv (1 - (1 - d)) (Qc_of_nat (size links))
           else mret 0) = inr rank_per_page) as ->.
  { unfold rank_per_page. case_decide; [|done].
    by rewrite pydiv_ok by (by apply Qc_of_nat_nonzero). }
  cbn [mbind result_bind].
  rewrite (for_each_tabulate _ _
    (λ name, if decide (name ∈ links)
             then (1 - d) / Qc_of_nat (length corpus) + rank_per_page
             else (1 - d) / Qc_of_nat (length corpus))); [|done|done].
  simpl. f_equal. apply list_fmap_ext. intros _ name _.
  unfold spec_transition, rank_per_page. f_equal.
  case_decide as Hin; [|done].
  rewrite decide_True.
  - unfold Qcdiv. ring.
  - apply elem_of_elements in Hin. unfold size, set_size. simpl.
    destruct (elements links); [set_solver|simpl; lia].
Qed.

Lemma length_keys {W : Type} (d : dict W) : length (keys d) = length d.
Proof. unfold keys. apply length_fmap. Qed.

Lemma size_empty_iff_gset (s : gset string) : size s = 0%nat ↔ s = ∅.
Proof. rewrite size_empty_iff. by unfold_leibniz. Qed.

(** The values of the transition model add up to 1 when the page links
    somewhere inside the corpus, and to [1 - d] when it has no link. *)
Lemma transition_sum (corpus : corpus_t) (links : gset string) (d : Qc) :
  dict_wf corpus → corpus ≠ [] → (∀ k, k ∈ links → k ∈ keys corpus) →
  sum (spec_transition corpus links d <$> keys corpus)
  = if decide (links = ∅) then 1 - d else 1.
Proof.
  intros Hwf Hne Hsub. unfold spec_transition.
  rewrite (sum_indicator links ((1 - d) / Qc_of_nat (length corpus))
             (d / Qc_of_nat (size links)) (keys corpus)).
  rewrite filter_elem_of_length, length_keys by done.
  assert (Qc_of_nat (length corpus) ≠ 0) as HN.
  { apply Qc_of_nat_nonzero. destruct corpus; [done|simpl; lia]. }
  case_decide as Hl.
  - subst links. rewrite size_empty, Qc_of_nat_0, Qcmult_0_l, Qcplus_0_r. by field.
  - assert (Qc_of_nat (size links) ≠ 0) as HL.
    { apply Qc_of_nat_nonzero. rewrite <-size_empty_iff_gset in Hl. lia. }
    by field.
Qed.

(** ** Theorems on transition_model and normalize *)

(** C1, at the input where the code departs from it: for the corpus
    [{A: {}}], the page [A] and the damping factor 0.85, [transition_model]
    returns [{A: 0.15}]; the values add up to 0.15, not to 1. *)
Theorem transition_model_dangling_sum :
  transition_model corpus1 "A" (q 85 100) = inr [("A", q 15 100)]
  ∧ sum (values [("A", q 15 100)]) = q 15 100
  ∧ q 15 100 ≠ 1.
Proof. split_and!; compute_done. Qed.

(** C2: for a page [page] of the corpus, [transition_model] returns a
    distribution over exactly the keys of the corpus, which gives
    [(1-d)/N + d/|links(page)|] to every page that [page] links to and
    [(1-d)/N] to every other page.  It holds for every damping factor, in
    particular for those of [0, 1]. *)
Theorem transition_model_values (corpus : corpus_t) (page : string) (d : Qc)
    (Hwf : dict_wf corpus) (Hpage : page ∈ keys corpus) :
  ∃ dist,
    transition_model corpus page d = inr dist
    ∧ keys dist = keys corpus
    ∧ ∀ p, p ∈ keys corpus →
        dict_get dist p
        = inr (if decide (p ∈ links_of corpus page)
               then (1 - d) / Qc_of_nat (length corpus)
                    + d / Qc_of_nat (size (links_of corpus page))
               else (1 - d) / Qc_of_nat (length corpus)).
Proof.
  destruct (dict_get_in _ _ Hpage) as [links Hget].
  eexists. split; [by apply transition_model_ok|].
  unfold links_of. rewrite Hget. split; [by rewrite keys_tabulate|].
  intros p Hp. by rewrite dict_get_tabulate.
Qed.

Lemma transition_model_values_witness :
  dict_wf corpus3 ∧ "B" ∈ keys corpus3 ∧
  ∃ dist,
    transition_model corpus3 "B" (q 85 100) = inr dist
    ∧ keys dist = keys corpus3
    ∧ ∀ p, p ∈ keys corpus3 →
        dict_get dist p
        = inr (if decide (p ∈ links_of corpus3 "B")
               then (1 - q 85 100) / Qc_of_nat (length corpus3)
                    + q 85 100 / Qc_of_nat (size (links_of corpus3 "B"))
               else (1 - q 85 100) / Qc_of_nat (length corpus3)).
Proof.
  assert (dict_wf corpus3) as Hwf by (unfold dict_wf; compute_done).
  assert ("B" ∈ keys corpus3) as Hin by compute_done.
  split_and!; [done..|]. exact (transition_model_values corpus3 "B" (q 85 100) Hwf Hin).
Defined.

(** C7: on a mapping whose total weight is positive, [normalize] returns a
    mapping with the same keys, whose values add up to 100, and in which
    every value is [(input value / total) * 100]. *)
Theorem normalize_spec (d : dict Qc) (Hwf : dict_wf d)
    (Hpos : 0 < sum (values d)) :
  ∃ r,
    normalize d = inr r
    ∧ keys r = keys d
    ∧ sum (values r) = Qc_of_nat 100
    ∧ ∀ k v, dict_get d k = inr v →
        dict_get r k = inr (v / sum (values d) * Qc_of_nat 100).
Proof.
  assert (sum (values d) ≠ 0) as Ht.
  { intros Ht. rewrite Ht in Hpos. by apply Qclt_not_eq in Hpos. }
  eexists. split; [by apply normalize_ok|].
  split; [by rewrite keys_tabulate|].
  split; [by eapply normalize_sum; [..|by apply normalize_ok]|].
  intros k v Hv. rewrite dict_get_tabulate.
  - unfold rank_of. by rewrite Hv.
  - apply dict_get_inr in Hv. apply list_elem_of_fmap. by exists (k, v).
Qed.

Lemma normalize_spec_witness :
  dict_wf [("A", q 1 2); ("B", q 3 2)]
  ∧ 0 < sum (values [("A", q 1 2); ("B", q 3 2)])
  ∧ ∃ r,
      normalize [("A", q 1 2); ("B", q 3 2)] = inr r
      ∧ keys r = keys [("A", q 1 2); ("B", q 3 2)]
      ∧ sum (values r) = Qc_of_nat 100
      ∧ ∀ k v, dict_get [("A", q 1 2); ("B", q 3 2)] k = inr v →
          dict_get r k
          = inr (v / sum (values [("A", q 1 2); ("B", q 3 2)]) * Qc_of_nat 100).
Proof.
  assert (dict_wf [("A", q 1 2); ("B", q 3 2)]) as Hwf
    by (unfold dict_wf; compute_done).
  assert (0 < sum (values [("A", q 1 2); ("B", q 3 2)])) as Hpos by compute_done.
  split_and!; [done..|]. exact (normalize_spec _ Hwf Hpos).
Defined.

(** ** The inbound-link index *)

Lemma links_of_get (d : dict (gset string)) (k : string) :
  k ∈ keys d → dict_get d k = inr (links_of d k).
Proof. intros [v Hv]%dict_get_in. unfold links_of. by rewrite Hv. Qed.

Lemma links_of_notin (d : dict (gset string)) (k : string) :
  k ∉ keys d → links_of d k = ∅.
Proof. intros Hk. unfold links_of. by rewrite dict_get_notin. Qed.

Lemma links_of_set (d : dict (gset string)) (k k' : string) (s : gset string) :
  links_of (dict_set d k s) k' = if decide (k = k') then s else links_of d k'.
Proof. unfold links_of. rewrite dict_get_set. by case_decide. Qed.

Section inbound_facts.
Context `{SetOrder}.

Lemma elem_of_enum (s : gset string) (x : string) : x ∈ enum s ↔ x ∈ s.
Proof. by rewrite (enum_perm s), elem_of_elements. Qed.

Lemma add_inbound_in (page link : string) (inb : dict (gset string)) :
  link ∈ keys inb →
  add_inbound page inb link
  = inr (dict_set inb link (links_of inb link ∪ {[page]})).
Proof.
  intros Hmem. unfold add_inbound, dict_mem.
  by rewrite bool_decide_eq_true_2, (links_of_get inb link Hmem).
Qed.

Lemma add_inbound_notin (page link : string) (inb : dict (gset string)) :
  link ∉ keys inb → add_inbound page inb link = inr inb.
Proof.
  intros Hmem. unfold add_inbound, dict_mem. by rewrite bool_decide_eq_false_2.
Qed.

Lemma add_inbound_loop (page : string) (l : list string)
    (inb : dict (gset string)) :
  ∃ inb',
    for_each l (add_inbound page) inb = inr inb'
    ∧ keys inb' = keys inb
    ∧ ∀ p x, x ∈ links_of inb' p ↔ x ∈ links_of inb p ∨ (x = page ∧ p ∈ l ∧ p ∈ keys inb).
Proof.
  revert inb. induction l as [|link l IH]; intros inb.
  - exists inb. split_and!; [done..|]. intros p x. set_solver.
  - cbn [for_each]. destruct (decide (link ∈ keys inb)) as [Hmem|Hmem].
    + rewrite add_inbound_in by done. cbn [mbind result_bind].
      destruct (IH (dict_set inb link (links_of inb link ∪ {[page]})))
        as (inb' & Hrun & Hkeys & Hmem').
      rewrite keys_dict_set_in in Hkeys by done.
      exists inb'. split_and!; [done..|]. intros p x.
      rewrite Hmem', links_of_set, keys_dict_set_in by done.
      case_decide; set_solver.
    + rewrite add_inbound_notin by done. cbn [mbind result_bind].
      destruct (IH inb) as (inb' & Hrun & Hkeys & Hmem').
      exists inb'. split_and!; [done..|]. intros p x.
      rewrite Hmem'. set_solver.
Qed.

Lemma build_inbound_loop (corpus : corpus_t) (ks : list string)
    (inb : dict (gset string)) :
  (∀ k, k ∈ ks → k ∈ keys corpus) →
  ∃ inb',
    for_each ks
      (λ inbound_links page,
         links ← dict_get corpus page;
         for_each (enum links) (add_inbound page) inbound_links) inb
    = inr inb'
    ∧ keys inb' = keys inb
    ∧ ∀ p x, x ∈ links_of inb' p
             ↔ x ∈ links_of inb p
               ∨ (x ∈ ks ∧ p ∈ links_of corpus x ∧ p ∈ keys inb).
Proof.
  revert inb. induction ks as [|page ks IH]; intros inb Hks.
  - exists inb. split_and!; [done..|]. intros p x. set_solver.
  - cbn [for_each]. rewrite (links_of_get corpus page) by set_solver.
    cbn [mbind result_bind].
    destruct (add_inbound_loop page (enum (links_of corpus page)) inb)
      as (inb1 & -> & Hkeys1 & Hmem1).
    cbn [mbind result_bind].
    destruct (IH inb1) as (inb' & Hrun & Hkeys & Hmem'); [set_solver|].
    exists inb'. split_and!; [done|congruence|]. intros p x.
    rewrite Hmem', Hmem1, Hkeys1, elem_of_enum. set_solver.
Qed.

(** The index has the keys of the corpus, and the entry of a page holds
    exactly the pages of the corpus that link to it. *)
Lemma build_inbound_ok (corpus : corpus_t) :
  dict_wf corpus →
  ∃ inb,
    build_inbound corpus = inr inb
    ∧ keys inb = keys corpus
    ∧ ∀ p x, x ∈ links_of inb p
             ↔ x ∈ keys corpus ∧ p ∈ links_of corpus x ∧ p ∈ keys corpus.
Proof.
  intros Hwf. unfold build_inbound.
  rewrite dict_comprehension_fmap by done.
  destruct (build_inbound_loop corpus (keys corpus)
              ((λ k, (k, (∅ : gset string))) <$> keys corpus))
    as (inb & Hrun & Hkeys & Hmem); [done|].
  rewrite keys_tabulate in Hkeys.
  exists inb. split_and!; [done..|]. intros p x.
  rewrite Hmem, keys_tabulate.
  assert (links_of ((λ k, (k, (∅ : gset string))) <$> keys corpus) p = ∅) as ->.
  { unfold links_of.
    destruct (decide (p ∈ keys corpus)) as [Hp|Hp].
    - by rewrite dict_get_tabulate.
    - by rewrite dict_get_notin by (by rewrite keys_tabulate). }
  set_solver.
Qed.
End inbound_facts.

(** ** dict.update *)

Section update_facts.
Context {V : Type}.
Implicit Types (d upd : dict V) (k : string).

Lemma keys_dict_update d upd :
  (∀ k, k ∈ keys upd → k ∈ keys d) → keys (dict_update d upd) = keys d.
Proof.
  unfold dict_update. revert d. induction upd as [|[k v] upd IH]; intros d Hsub; simpl.
  - done.
  - rewrite IH.
    + apply keys_dict_set_in. apply Hsub. set_solver.
    + intros k' Hk'. rewrite keys_dict_set_in by (apply Hsub; set_solver).
      apply Hsub. set_solver.
Qed.

Lemma dict_get_update d upd k :
  dict_wf upd →
  dict_get (dict_update d upd) k
  = match dict_get upd k with
    | inr v => inr v
    | inl _ => dict_get d k
    end.
Proof.
  unfold dict_update, dict_wf, keys. revert d.
  induction upd as [|[k' v] upd IH]; intros d Hnd; simpl; [done|].
  apply NoDup_cons in Hnd as [Hk' Hnd].
  rewrite IH by done. case_decide as Hk.
  - subst k'. rewrite (dict_get_notin upd k) by done.
    simpl. by rewrite dict_get_set, decide_True.
  - destruct (dict_get upd k); [|done].
    by rewrite dict_get_set, decide_False.
Qed.
End update_facts.

(** ** One round of iterate_pagerank *)

Lemma elem_of_inbound (corpus : corpus_t) (p x : string) :
  x ∈ inbound corpus p ↔ x ∈ keys corpus ∧ p ∈ links_of corpus x.
Proof. unfold inbound. rewrite list_elem_of_filter. naive_solver. Qed.

Lemma size_links_nonzero (s : gset string) (p : string) :
  p ∈ s → Qc_of_nat (size s) ≠ 0.
Proof.
  intros Hp. apply Qc_of_nat_nonzero.
  destruct (decide (size s = 0%nat)) as [Hs|Hs]; [|lia].
  apply size_empty_iff_gset in Hs. set_solver.
Qed.

Section round_facts.
Context `{SetOrder}.
Context (corpus : corpus_t) (d : Qc) (inb : dict (gset string)).
Context (Hwf : dict_wf corpus).
Context (Hinb_keys : keys inb = keys corpus).
Context (Hinb : ∀ p x, x ∈ links_of inb p
                       ↔ x ∈ keys corpus ∧ p ∈ links_of corpus x ∧ p ∈ keys corpus).

Let k : Qc := (1 - d) / Qc_of_nat (length corpus).

Section with_ranks.
Context (ranks : dict Qc) (Hranks : keys ranks = keys corpus).

Let contribution (q : string) : Qc :=
  rank_of ranks q / Qc_of_nat (size (links_of corpus q)).

Lemma inbound_acc_from (p : string) (l : list string) (acc : Qc) :
  (∀ q, q ∈ l → q ∈ keys corpus ∧ p ∈ links_of corpus q) →
  for_each l
    (λ acc linking_page,
       r ← dict_get ranks linking_page;
       links ← dict_get corpus linking_page;
       c ← pydiv r (Qc_of_nat (size links));
       mret (acc + c)) acc
  = inr (acc + sum (contribution <$> l)).
Proof.
  revert acc. induction l as [|q l IH]; intros acc Hl; csimpl.
  - rewrite sum_nil. f_equal. ring.
  - destruct (Hl q) as [Hq Hp]; [set_solver|].
    rewrite (rank_of_get ranks q) by (by rewrite Hranks).
    cbn [mbind result_bind].
    rewrite (links_of_get corpus q Hq). cbn [mbind result_bind].
    rewrite pydiv_ok by (by eapply size_links_nonzero).
    cbn [mbind result_bind mret result_ret].
    rewrite IH by set_solver. rewrite sum_cons. f_equal.
    unfold contribution. ring.
Qed.

Lemma enum_inbound (p : string) :
  enum (links_of inb p) ≡ₚ (if decide (p ∈ keys corpus) then inbound corpus p else []).
Proof.
  apply NoDup_Permutation.
  - rewrite enum_perm. apply NoDup_elements.
  - case_decide; [|constructor]. by apply NoDup_filter.
  - intros x. rewrite elem_of_enum, Hinb. case_decide.
    + rewrite elem_of_inbound. naive_solver.
    + set_solver.
Qed.

Lemma inbound_acc_ok (p : string) :
  p ∈ keys corpus →
  inbound_acc corpus ranks (enum (links_of inb p))
  = inr (sum (contribution <$> inbound corpus p)).
Proof.
  intros Hp. unfold inbound_acc.
  pose proof (enum_inbound p) as Hperm. rewrite decide_True in Hperm by done.
  rewrite (inbound_acc_from p).
  - f_equal. rewrite Qcplus_0_l. apply sum_perm. by apply fmap_Permutation.
  - intros q Hq. rewrite Hperm in Hq. by apply elem_of_inbound.
Qed.

(** The body of the loop over the pages, for a page of the corpus. *)
Lemma round_page_ok (upd : dict Qc) (changed : bool) (p : string) :
  p ∈ keys corpus →
  round_page corpus d k inb ranks (upd, changed) p
  = inr (if decide (exceeds (rank_of ranks p) (spec_update corpus d ranks p))
         then (dict_set upd p (spec_update corpus d ranks p), true)
         else (upd, changed)).
Proof.
  intros Hp. unfold round_page.
  rewrite (links_of_get inb p) by (by rewrite Hinb_keys).
  cbn [mbind result_bind]. rewrite inbound_acc_ok by done.
  cbn [mbind result_bind].
  rewrite (rank_of_get ranks p) by (by rewrite Hranks).
  cbn [mbind result_bind].
  destruct (decide (exceeds _ _)) as [Hex|Hex].
  - by rewrite decide_True by exact Hex.
  - by rewrite decide_False by exact Hex.
Qed.

Let committed (ks : list string) : dict Qc :=
  (λ p, (p, spec_update corpus d ranks p))
    <$> filter (λ p, exceeds (rank_of ranks p) (spec_update corpus d ranks p)) ks.

Lemma round_from (ks : list string) (upd : dict Qc) (changed : bool) :
  (∀ p, p ∈ ks → p ∈ keys corpus) →
  NoDup (keys upd ++ ks) →
  for_each ks (round_page corpus d k inb ranks) (upd, changed)
  = inr (upd ++ committed ks,
         changed || bool_decide
           (Exists (λ p, exceeds (rank_of ranks p) (spec_update corpus d ranks p)) ks)).
Proof.
  revert upd changed. induction ks as [|p ks IH]; intros upd changed Hks Hnd.
  - cbn [for_each]. unfold committed. rewrite filter_nil, fmap_nil, app_nil_r.
    rewrite bool_decide_eq_false_2 by (intros Hex; by apply Exists_nil in Hex).
    by rewrite orb_false_r.
  - cbn [for_each]. rewrite round_page_ok by set_solver.
    cbn [mbind result_bind].
    apply NoDup_app in Hnd as (Hupd & Hdis & [Hp Hnd]%NoDup_cons).
    unfold committed. rewrite filter_cons. case_decide as Hex.
    + rewrite dict_set_notin by (intros Hin; apply (Hdis _ Hin); set_solver).
      rewrite IH; [|set_solver|].
      * rewrite <-app_assoc. simpl. f_equal. f_equal.
        rewrite bool_decide_eq_true_2 by (by apply Exists_cons_hd).
        by rewrite orb_true_r.
      * unfold keys. rewrite fmap_app. simpl. rewrite <-app_assoc. simpl.
        apply NoDup_app. split_and!; [done| |by apply NoDup_cons].
        intros x Hx. by apply Hdis.
    + rewrite IH; [|set_solver|].
      * f_equal. f_equal. f_equal. apply bool_decide_ext.
        rewrite Exists_cons. naive_solver.
      * apply NoDup_app. split_and!; [done| |done].
        intros x Hx Hx'. apply (Hdis x Hx). set_solver.
Qed.

Lemma round_ok :
  round corpus d k inb ranks
  = inr (committed (keys corpus), (spec_round corpus d ranks).2).
Proof. unfold round. by rewrite round_from. Qed.

Lemma update_committed :
  dict_wf ranks →
  dict_update ranks (committed (keys corpus)) = (spec_round corpus d ranks).1.
Proof.
  intros Hrwf.
  assert (∀ p, p ∈ keys (committed (keys corpus)) → p ∈ keys corpus) as Hsub.
  { intros p. unfold committed. rewrite keys_tabulate, list_elem_of_filter.
    naive_solver. }
  assert (dict_wf (committed (keys corpus))) as Hcwf.
  { unfold dict_wf, committed. rewrite keys_tabulate. by apply NoDup_filter. }
  apply dict_ext.
  - rewrite keys_dict_update by (intros p Hp; rewrite Hranks; by apply Hsub).
    simpl. by rewrite keys_tabulate.
  - unfold dict_wf. rewrite keys_dict_update
      by (intros p Hp; rewrite Hranks; by apply Hsub). done.
  - intros p. rewrite keys_dict_update
      by (intros p' Hp'; rewrite Hranks; by apply Hsub).
    rewrite Hranks. intros Hp. rewrite dict_get_update by done.
    simpl. rewrite dict_get_tabulate by done.
    unfold committed. case_decide as Hex.
    + by rewrite dict_get_tabulate by (by apply list_elem_of_filter).
    + rewrite dict_get_notin.
      * apply rank_of_get. by rewrite Hranks.
      * rewrite keys_tabulate, list_elem_of_filter. naive_solver.
Qed.
End with_ranks.

Lemma keys_spec_round (ranks : dict Qc) :
  keys (spec_round corpus d ranks).1 = keys corpus.
Proof. simpl. by rewrite keys_tabulate. Qed.

(** The loop of the code runs the rounds of the specification. *)
Lemma iterate_loop_ok (fuel : nat) (ranks : dict Qc) :
  keys ranks = keys corpus →
  iterate_loop fuel corpus d k inb ranks
  = inr <$> spec_rounds fuel corpus d ranks.
Proof.
  revert ranks. induction fuel as [|fuel IH]; intros ranks Hranks; [done|].
  cbn [iterate_loop spec_rounds]. rewrite round_ok by done.
  destruct (spec_round corpus d ranks) as [ranks' ch] eqn:Hround.
  cbn [snd]. destruct ch; [|done].
  rewrite update_committed by (by unfold dict_wf; rewrite ?Hranks).
  rewrite Hround. cbn [fst]. apply IH.
  by rewrite <-(keys_spec_round ranks), Hround.
Qed.
End round_facts.

(** ** Theorems on iterate_pagerank *)

Section iterate_theorems.
Context `{SetOrder}.

Lemma iterate_init_ok (corpus : corpus_t) (d : Qc) :
  dict_wf corpus → corpus ≠ [] →
  ∃ inb,
    iterate_init corpus d
    = inr (spec_initial corpus, inb, (1 - d) / Qc_of_nat (length corpus))
    ∧ keys inb = keys corpus
    ∧ ∀ p x, x ∈ links_of inb p
             ↔ x ∈ keys corpus ∧ p ∈ links_of corpus x ∧ p ∈ keys corpus.
Proof.
  intros Hwf Hne. destruct (build_inbound_ok corpus Hwf) as (inb & Hb & Hk & Hm).
  exists inb. split_and!; [|done..].
  assert (Qc_of_nat (length (keys corpus)) ≠ 0) as HN.
  { rewrite length_keys. apply Qc_of_nat_nonzero. destruct corpus; [done|simpl; lia]. }
  unfold iterate_init. rewrite !pydiv_ok by done. cbn [mbind result_bind].
  rewrite Hb. cbn [mbind result_bind mret result_ret].
  by rewrite dict_comprehension_fmap, length_keys by done.
Qed.

Lemma iterate_init_empty (d : Qc) :
  iterate_init [] d = raise ZeroDivisionError.
Proof.
  unfold iterate_init. change (keys []) with (@nil string).
  change (length (@nil string)) with 0%nat. by rewrite Qc_of_nat_0, pydiv_zero.
Qed.

(** The code runs the rounds of the specification from the initial ranks
    and normalizes what they return. *)
Lemma iterate_pagerank_rounds (fuel : nat) (corpus : corpus_t) (d : Qc) :
  dict_wf corpus → corpus ≠ [] →
  iterate_pagerank fuel corpus d
  = normalize <$> spec_rounds fuel corpus d (spec_initial corpus).
Proof.
  intros Hwf Hne.
  destruct (iterate_init_ok corpus d Hwf Hne) as (inb & Hinit & Hk & Hm).
  unfold iterate_pagerank. rewrite Hinit.
  rewrite iterate_loop_ok; [|done..|by unfold spec_initial; rewrite keys_tabulate].
  by destruct (spec_rounds fuel corpus d (spec_initial corpus)).
Qed.

(** C3: on a non-empty corpus, [iterate_pagerank] starts every rank at
    [1/N] and runs the synchronous rounds of the specification: every
    candidate [(1-d)/N + d * Σ rank(q)/|links(q)|] over the pages [q]
    that link to the page is computed from the ranks of the previous
    round, it is committed only when the absolute change exceeds 0.001,
    and the loop stops exactly at the first round that commits nothing.
    It holds for every damping factor, in particular for those of
    [0, 1). *)
Theorem iterate_pagerank_refines (fuel : nat) (corpus : corpus_t) (d : Qc)
    (Hwf : dict_wf corpus) (Hne : corpus ≠ []) :
  iterate_pagerank fuel corpus d
  = normalize <$> spec_rounds fuel corpus d (spec_initial corpus).
Proof. by apply iterate_pagerank_rounds. Qed.

(** C10: for every mapping, also one with links to pages that are not
    among its keys, the inbound-link index has exactly the keys of the
    mapping; the entry of a page holds exactly the keys that link to it;
    a page that is not a key has no entry; and the index is the one of the
    mapping without its links to non-keys, so such a link is dropped. *)
Theorem build_inbound_only_keys (corpus : corpus_t) (Hwf : dict_wf corpus) :
  ∃ inb,
    build_inbound corpus = inr inb
    ∧ keys inb = keys corpus
    ∧ (∀ p x, x ∈ links_of inb p
              ↔ x ∈ keys corpus ∧ p ∈ keys corpus ∧ p ∈ links_of corpus x)
    ∧ (∀ t, t ∉ keys corpus → dict_get inb t = raise (KeyError t))
    ∧ build_inbound (drop_foreign_links corpus) = inr inb.
Proof.
  destruct (build_inbound_ok corpus Hwf) as (inb & Hb & Hk & Hm).
  exists inb. split_and!; [done..|naive_solver| |].
  { intros t Ht. apply dict_get_notin. by rewrite Hk. }
  assert (keys (drop_foreign_links corpus) = keys corpus) as Hkd.
  { unfold drop_foreign_links, keys. rewrite <-list_fmap_compose.
    apply list_fmap_ext. by intros _ [??] _. }
  assert (∀ x, links_of (drop_foreign_links corpus) x
               = filter (λ link, link ∈ keys corpus) (links_of corpus x)) as Hld.
  { intros x. unfold links_of, drop_foreign_links.
    generalize (keys corpus). intros ks.
    clear. induction corpus as [|[k v] c IH]; simpl; [set_solver|].
    case_decide; [done|]. apply IH. }
  destruct (build_inbound_ok (drop_foreign_links corpus)) as (inb2 & Hb2 & Hk2 & Hm2).
  { unfold dict_wf. by rewrite Hkd. }
  rewrite Hb2. f_equal. apply dict_ext.
  - congruence.
  - unfold dict_wf. by rewrite Hk2, Hkd.
  - intros p Hp. rewrite (links_of_get inb2 p Hp).
    rewrite (links_of_get inb p) by congruence. f_equal.
    apply set_eq. intros x. rewrite Hm2, Hm, Hkd, Hld, elem_of_filter.
    naive_solver.
Qed.
End iterate_theorems.

Lemma iterate_pagerank_refines_witness :
  dict_wf corpus3 ∧ corpus3 ≠ []
  ∧ iterate_pagerank 100 corpus3 (q 85 100)
    = normalize <$> spec_rounds 100 corpus3 (q 85 100) (spec_initial corpus3).
Proof.
  assert (dict_wf corpus3) as Hwf by (unfold dict_wf; compute_done).
  assert (corpus3 ≠ []) as Hne by done.
  split_and!; [done..|].
  exact (iterate_pagerank_refines 100 corpus3 (q 85 100) Hwf Hne).
Defined.

Lemma build_inbound_only_keys_witness :
  dict_wf corpus_foreign
  ∧ ∃ inb,
      build_inbound corpus_foreign = inr inb
      ∧ keys inb = keys corpus_foreign
      ∧ (∀ p x, x ∈ links_of inb p
                ↔ x ∈ keys corpus_foreign ∧ p ∈ keys corpus_foreign
                  ∧ p ∈ links_of corpus_foreign x)
      ∧ (∀ t, t ∉ keys corpus_foreign → dict_get inb t = raise (KeyError t))
      ∧ build_inbound (drop_foreign_links corpus_foreign) = inr inb.
Proof.
  assert (dict_wf corpus_foreign) as Hwf by (unfold dict_wf; compute_done).
  split; [done|]. exact (build_inbound_only_keys corpus_foreign Hwf).
Defined.

(** ** Invalid input *)

(** C8 fails for the damping factor: 2 is outside [0, 1), and both
    [transition_model] and [iterate_pagerank] return a result for it. *)
Lemma invalid_damping_returns :
  ¬ (q 2 1 < 1)
  ∧ transition_model corpus1 "A" (q 2 1) = inr [("A", q (-1) 1)]
  ∧ iterate_pagerank 2 corpus1 (q 2 1) = Some (inr [("A", q 100 1)]).
Proof. split_and!; compute_done. Qed.

(** C8, amended: a page that is not a key of the corpus, which is every
    page when the corpus is empty, makes [transition_model] raise
    [KeyError]; on the empty corpus [iterate_pagerank] raises
    [ZeroDivisionError] before its first round and [sample_pagerank] raises
    [ValueError] before its first draw.  The damping factor is never
    checked: for a page of the corpus [transition_model] returns a
    distribution whatever the damping factor. *)
Theorem invalid_input_outcomes {G : Type} `{RandomSource G} `{SetOrder}
    (corpus : corpus_t) (page : string) (d : Qc) (fuel n : nat) (g : G) :
  (if decide (page ∈ keys corpus)
   then ∃ dist, transition_model corpus page d = inr dist
   else transition_model corpus page d = raise (KeyError page))
  ∧ iterate_pagerank fuel [] d = Some (raise ZeroDivisionError)
  ∧ sample_pagerank [] d n g = raise ValueError.
Proof.
  split_and!.
  - case_decide as Hpage.
    + destruct (dict_get_in _ _ Hpage) as [links Hget].
      unfold transition_model. rewrite Hget. cbn [mbind result_bind].
      rewrite (pydiv_ok _ (Qc_of_nat (length corpus)))
        by (eapply Qc_of_nat_nonzero, dict_get_length; done).
      cbn [mbind result_bind].
      assert (∃ r, (if decide (0 < size links)%nat
                    then pydiv (1 - (1 - d)) (Qc_of_nat (size links))
                    else mret 0) = inr r) as [r ->].
      { case_decide; [|by eexists].
        rewrite pydiv_ok by (by apply Qc_of_nat_nonzero). by eexists. }
      cbn [mbind result_bind]. rewrite for_each_pure. by eexists.
    + unfold transition_model. by rewrite dict_get_notin.
  - unfold iterate_pagerank. by rewrite iterate_init_empty.
  - done.
Qed.

(** ** Visit counters *)

Lemma total_visits_tabulate (ks : list string) :
  total_visits ((λ k, (k, 0%nat)) <$> ks) = 0%nat.
Proof.
  unfold total_visits. rewrite values_tabulate.
  induction ks as [|k ks IH]; csimpl; [done|]. by rewrite IH.
Qed.

Lemma total_visits_increment (samples : dict nat) (key : string) (c : nat) :
  dict_get samples key = inr c →
  total_visits (dict_set samples key (c + 1)%nat) = S (total_visits samples).
Proof.
  unfold total_visits, values.
  induction samples as [|[k v] samples IH]; csimpl; [done|].
  case_decide.
  - intros [= ->]. csimpl. lia.
  - intros Hget. csimpl. rewrite IH by done. lia.
Qed.

Lemma sum_counts (samples : dict nat) :
  sum (values (counts samples)) = Qc_of_nat (total_visits samples).
Proof.
  unfold total_visits, counts, values.
  induction samples as [|[k v] samples IH]; csimpl.
  - by rewrite sum_nil, Qc_of_nat_0.
  - rewrite sum_cons, IH. unfold Qc_of_nat.
    by rewrite Nat2Z.inj_add, Z2Qc_inj_add.
Qed.

Lemma keys_counts (samples : dict nat) : keys (counts samples) = keys samples.
Proof.
  unfold counts, keys. rewrite <-list_fmap_compose.
  apply list_fmap_ext. by intros _ [??] _.
Qed.

(** ** The sampling loop *)

Lemma Qc_sub_nonpos (x y : Qc) : x ≤ y → x - y ≤ 0.
Proof.
  intros Hle. apply (Qcplus_le_mono_r _ _ y).
  by replace (x - y + y) with x by ring; replace (0 + y) with y by ring.
Qed.

Lemma Qc_sub_nonpos_inv (x y : Qc) : x - y ≤ 0 → x ≤ y.
Proof.
  intros Hle. apply (Qcplus_le_mono_r _ _ y) in Hle.
  by replace (x - y + y) with x in Hle by ring; replace (0 + y) with y in Hle by ring.
Qed.

Lemma transition_model_sum (corpus : corpus_t) (page : string) (d : Qc) :
  dict_wf corpus → page ∈ keys corpus →
  (∀ link, link ∈ links_of corpus page → link ∈ keys corpus) →
  ∃ dist,
    transition_model corpus page d = inr dist
    ∧ keys dist = keys corpus
    ∧ sum (values dist) = if decide (links_of corpus page = ∅) then 1 - d else 1.
Proof.
  intros Hwf Hpage Hcl. destruct (dict_get_in _ _ Hpage) as [links Hget].
  unfold links_of in *. rewrite Hget in *.
  eexists. split; [by apply transition_model_ok|].
  split; [by rewrite keys_tabulate|].
  rewrite values_tabulate. apply transition_sum; [done| |done].
  intros ->. set_solver.
Qed.

Section sampling_facts.
Context {G : Type} `{RandomSource G}.

Lemma randrange_ok (n : nat) (g : G) :
  (0 < n)%nat →
  ∃ i g', randrange 0 n g = inr (i, g') ∧ (i < n)%nat ∧ g' = (next_below n g).2.
Proof.
  intros Hn. unfold randrange. rewrite decide_True by done.
  rewrite Nat.sub_0_r. pose proof (next_below_lt n g Hn) as Hlt.
  destruct (next_below n g) as [i g']. exists i, g'. by split_and!.
Qed.
End sampling_facts.

(** ** Ranks stay positive *)

Lemma Qc_of_nat_inv_nonneg (n : nat) : 0 ≤ / Qc_of_nat n.
Proof.
  destruct n as [|n].
  - by rewrite Qc_of_nat_0.
  - apply Qclt_le_weak, Qcinv_pos, Qc_of_nat_pos. lia.
Qed.

Lemma rank_of_nonneg (ranks : dict Qc) (p : string) :
  all_pos ranks → 0 ≤ rank_of ranks p.
Proof.
  intros Hpos. unfold rank_of. destruct (dict_get ranks p) as [e|r] eqn:Hget; [done|].
  apply dict_get_inr in Hget. apply Qclt_le_weak.
  unfold all_pos in Hpos. rewrite Forall_forall in Hpos. apply Hpos.
  unfold values. apply list_elem_of_fmap. by exists (p, r).
Qed.

Lemma rank_of_pos (ranks : dict Qc) (p : string) :
  all_pos ranks → p ∈ keys ranks → 0 < rank_of ranks p.
Proof.
  intros Hpos [r Hget]%dict_get_in. unfold rank_of. rewrite Hget.
  apply dict_get_inr in Hget.
  unfold all_pos in Hpos. rewrite Forall_forall in Hpos. apply Hpos.
  unfold values. apply list_elem_of_fmap. by exists (p, r).
Qed.

Section positive_ranks.
Context (corpus : corpus_t) (d : Qc).
Context (Hne : corpus ≠ []) (Hd0 : 0 ≤ d) (Hd1 : d < 1).

Lemma base_rank_pos : 0 < (1 - d) / Qc_of_nat (length corpus).
Proof.
  apply Qcmult_pos_pos.
  - apply (Qcplus_lt_mono_r _ _ d).
    by replace (0 + d) with d by ring; replace (1 - d + d) with 1 by ring.
  - apply Qcinv_pos, Qc_of_nat_pos. destruct corpus; [done|simpl; lia].
Qed.

Lemma spec_update_pos (ranks : dict Qc) (p : string) :
  all_pos ranks → 0 < spec_update corpus d ranks p.
Proof.
  intros Hpos. unfold spec_update.
  apply Qcplus_pos_nonneg; [apply base_rank_pos|].
  apply Qcmult_nonneg_nonneg; [done|]. apply sum_nonneg.
  apply Forall_fmap, Forall_forall. intros x _. simpl.
  apply Qcmult_nonneg_nonneg; [by apply rank_of_nonneg|apply Qc_of_nat_inv_nonneg].
Qed.

Lemma spec_round_pos (ranks : dict Qc) :
  keys ranks = keys corpus → all_pos ranks →
  all_pos (spec_round corpus d ranks).1.
Proof.
  intros Hkeys Hpos. unfold all_pos. simpl. rewrite values_tabulate.
  apply Forall_fmap, Forall_forall. intros p Hp. simpl. case_decide.
  - by apply spec_update_pos.
  - apply rank_of_pos; [done|]. by rewrite Hkeys.
Qed.

Lemma spec_rounds_pos (fuel : nat) (ranks r : dict Qc) :
  keys ranks = keys corpus → all_pos ranks →
  spec_rounds fuel corpus d ranks = Some r →
  keys r = keys corpus ∧ all_pos r.
Proof.
  revert ranks. induction fuel as [|fuel IH]; intros ranks Hkeys Hpos; [done|].
  cbn [spec_rounds].
  pose proof (spec_round_pos ranks Hkeys Hpos) as Hpos'.
  assert (keys (spec_round corpus d ranks).1 = keys corpus) as Hkeys'
    by (simpl; by rewrite keys_tabulate).
  destruct (spec_round corpus d ranks) as [ranks' [|]].
  - by apply IH.
  - by intros [= <-].
Qed.

Lemma spec_initial_pos : all_pos (spec_initial corpus).
Proof.
  unfold all_pos, spec_initial. rewrite values_tabulate.
  apply Forall_fmap, Forall_forall. intros p _. simpl.
  apply Qcmult_pos_pos; [done|].
  apply Qcinv_pos, Qc_of_nat_pos. destruct corpus; [done|simpl; lia].
Qed.

(** The ranks that the loop hands to [normalize] have a positive total. *)
Lemma final_ranks_total_pos (fuel : nat) (r : dict Qc) :
  spec_rounds fuel corpus d (spec_initial corpus) = Some r →
  0 < sum (values r).
Proof.
  intros Hrun.
  destruct (spec_rounds_pos fuel (spec_initial corpus) r) as [Hkeys Hpos];
    [by unfold spec_initial; rewrite keys_tabulate|apply spec_initial_pos|done|].
  apply sum_pos; [|done].
  intros Hnil. destruct corpus as [|[k v] c]; [done|].
  destruct r; [done|]. done.
Qed.
End positive_ranks.

Lemma not_exceeds_same (x : Qc) : ¬ exceeds x x.
Proof.
  unfold exceeds. replace (x - x) with (Q2Qc 0) by ring.
  intros Hlt. by vm_compute in Hlt.
Qed.

(** ** The single-page scenario *)

(** C4, at the input where the code departs from it: for the corpus
    [{A: {}}] and the damping factor 0.85, [iterate_pagerank] returns
    [{A: 100}], which is not [{A: 1}]; [sample_pagerank] with [n = 1]
    returns [{A: 100}] as well when the draw is 0.1, and raises
    [ZeroDivisionError] when the draw is 0.5. *)
Theorem single_page_results :
  iterate_pagerank 2 corpus1 (q 85 100) = Some (inr [("A", q 100 1)])
  ∧ sample_pagerank corpus1 (q 85 100) 1 (Tape [0%nat] [q 1 10])
    = inr [("A", q 100 1)]
  ∧ sample_pagerank corpus1 (q 85 100) 1 (Tape [0%nat] [q 1 2])
    = raise ZeroDivisionError
  ∧ [("A", q 100 1)] ≠ [("A", q 1 1)].
Proof. split_and!; compute_done. Qed.

(** ** The sampling loop and dangling pages *)

(** C5, at the input where the code departs from it: for the corpus
    [{A: {}}], the damping factor 0.85 and [n = 1], when the draw is 0.5 the
    scan of [{A: 0.15}] ends without selecting a page; no counter is
    incremented and the visit counts add up to 0, not to 1. *)
Theorem sample_loop_dangling_skips :
  transition_model corpus1 "A" (q 85 100) = inr [("A", q 15 100)]
  ∧ scan [("A", q 15 100)] ["A"] (q 1 2) = inr None
  ∧ ∃ st,
      sample_loop corpus1 (q 85 100) 1 (Tape [0%nat] [q 1 2]) = inr st
      ∧ s_samples st = [("A", 0%nat)]
      ∧ total_visits (s_samples st) = 0%nat.
Proof.
  split; [compute_done|]. split; [compute_done|].
  eexists. split; [vm_compute; reflexivity|]. by split.
Qed.

(** ** The zero total *)

Lemma corpus3_wf : dict_wf corpus3.
Proof. unfold dict_wf. compute_done. Qed.

Lemma corpus3_links_closed : links_closed corpus3.
Proof.
  intros p link. unfold links_of, corpus3. cbn [dict_get].
  change (keys _) with ["A"; "B"; "C"].
  repeat case_decide; cbn [mret result_ret raise]; set_solver.
Qed.




(** * Further properties of the code *)

(** ** transition_model: total mass and range *)

(** The values returned by [transition_model] for a page of the corpus
    whose links stay inside the corpus add up to 1 when the page has a
    link, and to [1 - d] when it has none. *)
Theorem transition_model_mass (corpus : corpus_t) (page : string) (d : Qc)
    (Hwf : dict_wf corpus) (Hpage : page ∈ keys corpus)
    (Hcl : ∀ link, link ∈ links_of corpus page → link ∈ keys corpus) :
  ∃ dist,
    transition_model corpus page d = inr dist
    ∧ sum (values dist) = if decide (links_of corpus page = ∅) then 1 - d else 1.
Proof.
  destruct (transition_model_sum corpus page d Hwf Hpage Hcl)
    as (dist & Hrun & _ & Hsum).
  by exists dist.
Qed.

Lemma transition_model_mass_witness :
  dict_wf corpus3 ∧ "B" ∈ keys corpus3
  ∧ (∀ link, link ∈ links_of corpus3 "B" → link ∈ keys corpus3)
  ∧ ∃ dist,
      transition_model corpus3 "B" (q 85 100) = inr dist
      ∧ sum (values dist)
        = if decide (links_of corpus3 "B" = ∅) then 1 - q 85 100 else 1.
Proof.
  assert ("B" ∈ keys corpus3) as Hpage by compute_done.
  split; [exact corpus3_wf|]. split; [exact Hpage|].
  split; [exact (corpus3_links_closed "B")|].
  exact (transition_model_mass corpus3 "B" (q 85 100) corpus3_wf Hpage
           (corpus3_links_closed "B")).
Defined.

Lemma Qc_of_nat_ge_1 (n : nat) : (0 < n)%nat → 1 ≤ Qc_of_nat n.
Proof.
  intros Hn. unfold Qc_of_nat. rewrite <-Z2Qc_inj_1.
  apply (proj1 (Z2Qc_inj_le 1 (Z.of_nat n))). lia.
Qed.

Lemma Qc_div_nat_bounds (x : Qc) (n : nat) :
  0 ≤ x → (0 < n)%nat → 0 ≤ x / Qc_of_nat n ∧ x / Qc_of_nat n ≤ x.
Proof.
  intros Hx Hn. pose proof (Qc_of_nat_pos n Hn) as Hpos. split.
  - apply Qcmult_nonneg_nonneg; [done|]. by apply Qclt_le_weak, Qcinv_pos.
  - apply (Qcmult_le_mono_pos_r _ _ (Qc_of_nat n)); [done|].
    replace (x / Qc_of_nat n * Qc_of_nat n) with (x * 1)
      by (field; by apply Qc_of_nat_nonzero).
    apply Qcmult_le_mono_nonneg_l; [done|]. by apply Qc_of_nat_ge_1.
Qed.

(** For a damping factor of [0, 1], every value returned by
    [transition_model] is a probability: it lies between [(1-d)/N], which
    is not negative, and 1. *)
Theorem transition_model_range (corpus : corpus_t) (page : string) (d : Qc)
    (Hwf : dict_wf corpus) (Hpage : page ∈ keys corpus)
    (Hd0 : 0 ≤ d) (Hd1 : d ≤ 1) :
  ∃ dist,
    transition_model corpus page d = inr dist
    ∧ Forall (λ v, 0 ≤ (1 - d) / Qc_of_nat (length corpus)
                   ∧ (1 - d) / Qc_of_nat (length corpus) ≤ v ∧ v ≤ 1)
        (values dist).
Proof.
  destruct (dict_get_in _ _ Hpage) as [links Hget].
  eexists. split; [by apply transition_model_ok|].
  rewrite values_tabulate. apply Forall_fmap, Forall_forall. intros p _. simpl.
  assert (0 ≤ 1 - d) as H1d.
  { apply (Qcplus_le_mono_r _ _ d).
    by replace (0 + d) with d by ring; replace (1 - d + d) with 1 by ring. }
  assert (0 < length corpus)%nat as HN by (by eapply dict_get_length).
  destruct (Qc_div_nat_bounds (1 - d) (length corpus) H1d HN) as [Hb0 Hb1].
  split; [done|]. unfold spec_transition. case_decide as Hin.
  - assert (0 < size links)%nat as HL.
    { destruct (decide (size links = 0%nat)) as [Hs|Hs]; [|lia].
      apply size_empty_iff_gset in Hs. set_solver. }
    destruct (Qc_div_nat_bounds d (size links) Hd0 HL) as [Hc0 Hc1]. split.
    + rewrite <-(Qcplus_0_r ((1 - d) / Qc_of_nat (length corpus))) at 1.
      by apply Qcplus_le_mono_l.
    + apply Qcle_trans with ((1 - d) + d); [by apply Qcplus_le_compat|].
      replace (1 - d + d) with 1 by ring. apply Qcle_refl.
  - split; [done|]. apply Qcle_trans with (1 - d); [exact Hb1|].
    apply (Qcplus_le_mono_r _ _ d).
    replace (1 - d + d) with (1 + 0) by ring. by apply Qcplus_le_mono_l.
Qed.

Lemma transition_model_range_witness :
  dict_wf corpus3 ∧ "B" ∈ keys corpus3 ∧ 0 ≤ q 85 100 ∧ q 85 100 ≤ 1
  ∧ ∃ dist,
      transition_model corpus3 "B" (q 85 100) = inr dist
      ∧ Forall (λ v, 0 ≤ (1 - q 85 100) / Qc_of_nat (length corpus3)
                     ∧ (1 - q 85 100) / Qc_of_nat (length corpus3) ≤ v ∧ v ≤ 1)
          (values dist).
Proof.
  assert ("B" ∈ keys corpus3) as Hpage by compute_done.
  assert (0 ≤ q 85 100) as Hd0 by compute_done.
  assert (q 85 100 ≤ 1) as Hd1 by compute_done.
  split; [exact corpus3_wf|]. split; [exact Hpage|].
  split; [exact Hd0|]. split; [exact Hd1|].
  exact (transition_model_range corpus3 "B" (q 85 100) corpus3_wf Hpage Hd0 Hd1).
Defined.

(** ** normalize: failure and idempotence *)

(** [normalize] raises exactly when its input is not empty and has total
    zero, and then it is [ZeroDivisionError]; it raises nothing else. *)
Theorem normalize_raises_iff (d : dict Qc) (Hwf : dict_wf d) :
  (normalize d = raise ZeroDivisionError ↔ d ≠ [] ∧ sum (values d) = 0)
  ∧ ∀ e, normalize d = inl e → e = ZeroDivisionError.
Proof.
  destruct (decide (d = [])) as [->|Hne].
  - rewrite normalize_nil. split; [|done]. split; [done|]. by intros [? _].
  - destruct (decide (sum (values d) = 0)) as [Hz|Hz].
    + rewrite normalize_zero by done. split; [done|]. by intros e [= <-].
    + rewrite normalize_ok by done. split; [|done]. split; [done|]. by intros [_ ?].
Qed.

Lemma normalize_raises_iff_witness :
  dict_wf [("A", Q2Qc 0); ("B", Q2Qc 0)]
  ∧ (normalize [("A", Q2Qc 0); ("B", Q2Qc 0)] = raise ZeroDivisionError
     ↔ [("A", Q2Qc 0); ("B", Q2Qc 0)] ≠ []
       ∧ sum (values [("A", Q2Qc 0); ("B", Q2Qc 0)]) = 0)
  ∧ ∀ e, normalize [("A", Q2Qc 0); ("B", Q2Qc 0)] = inl e → e = ZeroDivisionError.
Proof.
  assert (dict_wf [("A", Q2Qc 0); ("B", Q2Qc 0)]) as Hwf
    by (unfold dict_wf; compute_done).
  split; [exact Hwf|]. exact (normalize_raises_iff _ Hwf).
Defined.

Lemma Qc_of_nat_100_nonzero : Qc_of_nat 100 ≠ 0.
Proof. apply Qc_of_nat_nonzero. lia. Qed.

(** [normalize] is idempotent: normalizing its own result returns it
    unchanged. *)
Theorem normalize_idempotent (d r : dict Qc) (Hwf : dict_wf d)
    (Hrun : normalize d = inr r) :
  normalize r = inr r.
Proof.
  destruct (decide (d = [])) as [->|Hne].
  { rewrite normalize_nil in Hrun. by injection Hrun as <-. }
  assert (sum (values d) ≠ 0) as Ht.
  { intros Hz. by rewrite normalize_zero in Hrun. }
  pose proof (normalize_sum d r Hwf Ht Hrun) as Hsum.
  rewrite normalize_ok in Hrun by done. injection Hrun as <-.
  rewrite normalize_ok.
  - rewrite Hsum, keys_tabulate. f_equal. apply list_fmap_ext.
    intros i k Hk%list_elem_of_lookup_2. f_equal.
    unfold rank_of at 1. rewrite dict_get_tabulate by done.
    field. split; [done|apply Qc_of_nat_100_nonzero].
  - unfold dict_wf. by rewrite keys_tabulate.
  - rewrite Hsum. apply Qc_of_nat_100_nonzero.
Qed.

Lemma normalize_idempotent_witness :
  dict_wf [("A", q 1 2); ("B", q 3 2)]
  ∧ normalize [("A", q 1 2); ("B", q 3 2)] = inr [("A", q 25 1); ("B", q 75 1)]
  ∧ normalize [("A", q 25 1); ("B", q 75 1)] = inr [("A", q 25 1); ("B", q 75 1)].
Proof.
  assert (dict_wf [("A", q 1 2); ("B", q 3 2)]) as Hwf
    by (unfold dict_wf; compute_done).
  assert (normalize [("A", q 1 2); ("B", q 3 2)]
          = inr [("A", q 25 1); ("B", q 75 1)]) as Hrun by compute_done.
  split; [exact Hwf|]. split; [exact Hrun|].
  exact (normalize_idempotent _ _ Hwf Hrun).
Defined.

(** ** sample_pagerank: outcomes *)

Lemma scan_total (dist : dict Qc) (ks : list string) (rnd : Qc) :
  (∀ k, k ∈ ks → k ∈ keys dist) →
  ∃ o, scan dist ks rnd = inr o ∧ ∀ key, o = Some key → key ∈ ks.
Proof.
  revert rnd. induction ks as [|k ks IH]; intros rnd Hks.
  - exists None. by split.
  - cbn [scan]. rewrite (rank_of_get dist k) by set_solver.
    cbn [mbind result_bind]. case_decide.
    + exists (Some k). split; [done|]. intros key [= <-]. set_solver.
    + destruct (IH (rnd - rank_of dist k)) as (o & Hscan & Ho); [set_solver|].
      exists o. split; [done|]. intros key Hkey. set_solver.
Qed.

Lemma counts_nonneg (samples : dict nat) :
  Forall (λ v, 0 ≤ v) (values (counts samples)).
Proof.
  unfold counts, values. rewrite <-list_fmap_compose.
  apply Forall_fmap, Forall_forall. intros [k c] _. simpl.
  destruct c as [|c]; [by rewrite Qc_of_nat_0|].
  apply Qclt_le_weak, Qc_of_nat_pos. lia.
Qed.

Lemma rank_of_nonneg_weak (ranks : dict Qc) (p : string) :
  Forall (λ v, 0 ≤ v) (values ranks) → 0 ≤ rank_of ranks p.
Proof.
  intros Hpos. unfold rank_of. destruct (dict_get ranks p) as [e|r] eqn:Hget; [done|].
  apply dict_get_inr in Hget. rewrite Forall_forall in Hpos. apply Hpos.
  unfold values. apply list_elem_of_fmap. by exists (p, r).
Qed.

(** What [normalize] makes of visit counters that are not all zero. *)
Lemma normalize_counts (samples : dict nat) :
  dict_wf samples → (0 < total_visits samples)%nat →
  ∃ dist,
    normalize (counts samples) = inr dist
    ∧ keys dist = keys samples
    ∧ sum (values dist) = Qc_of_nat 100
    ∧ Forall (λ v, 0 ≤ v) (values dist).
Proof.
  intros Hwf Hpos.
  assert (dict_wf (counts samples)) as Hcwf by (unfold dict_wf; by rewrite keys_counts).
  assert (sum (values (counts samples)) ≠ 0) as Ht.
  { rewrite sum_counts. by apply Qc_of_nat_nonzero. }
  eexists. split; [by apply normalize_ok|].
  split; [by rewrite keys_tabulate, keys_counts|].
  split; [by eapply normalize_sum; [..|by apply normalize_ok]|].
  rewrite values_tabulate. apply Forall_fmap, Forall_forall. intros k _. simpl.
  apply Qcmult_nonneg_nonneg.
  - apply Qcmult_nonneg_nonneg; [apply rank_of_nonneg_weak, counts_nonneg|].
    rewrite sum_counts. apply Qc_of_nat_inv_nonneg.
  - apply Qclt_le_weak, Qc_of_nat_pos. lia.
Qed.

Section sampling_outcomes.
Context {G : Type} `{RandomSource G}.
Context (corpus : corpus_t) (d : Qc) (Hwf : dict_wf corpus).

Lemma sample_step_any (st : sampler G) (i : nat) :
  s_page st ∈ keys corpus → keys (s_samples st) = keys corpus →
  ∃ st',
    sample_step corpus d st i = inr st'
    ∧ s_page st' ∈ keys corpus
    ∧ keys (s_samples st') = keys corpus
    ∧ (total_visits (s_samples st) ≤ total_visits (s_samples st')
       ≤ S (total_visits (s_samples st)))%nat.
Proof.
  intros Hpage Hkeys. destruct (dict_get_in _ _ Hpage) as [links Hget].
  unfold sample_step. rewrite (transition_model_ok corpus _ d links) by done.
  cbn [mbind result_bind]. destruct (uniform 0 1 (s_rng st)) as [rnd g'].
  rewrite keys_tabulate.
  destruct (scan_total ((λ name, (name, spec_transition corpus links d name))
                          <$> keys corpus) (keys corpus) rnd)
    as (o & -> & Ho); [by intros k Hk; rewrite keys_tabulate|].
  cbn [mbind result_bind]. destruct o as [key|].
  - destruct (dict_get_in (s_samples st) key) as [c Hc];
      [by rewrite Hkeys; apply Ho|].
    rewrite Hc. cbn [mbind result_bind mret result_ret].
    eexists. split; [done|]. cbn [s_page s_samples]. split_and!.
    + by apply Ho.
    + rewrite keys_dict_set_in; [done|]. rewrite Hkeys. by apply Ho.
    + rewrite (total_visits_increment _ _ _ Hc). lia.
    + rewrite (total_visits_increment _ _ _ Hc). lia.
  - eexists. split; [done|]. cbn [s_page s_samples]. split_and!; [done..|lia|lia].
Qed.

Lemma sample_steps_any (n a : nat) (st : sampler G) :
  s_page st ∈ keys corpus → keys (s_samples st) = keys corpus →
  ∃ st',
    for_each (seq a n) (sample_step corpus d) st = inr st'
    ∧ s_page st' ∈ keys corpus
    ∧ keys (s_samples st') = keys corpus
    ∧ (total_visits (s_samples st) ≤ total_visits (s_samples st')
       ≤ total_visits (s_samples st) + n)%nat.
Proof.
  revert a st. induction n as [|n IH]; intros a st Hpage Hkeys.
  - exists st. split_and!; [done..|lia|lia].
  - cbn [seq for_each].
    destruct (sample_step_any st a Hpage Hkeys) as (st1 & -> & Hp1 & Hk1 & Ht1).
    cbn [mbind result_bind].
    destruct (IH (S a) st1 Hp1 Hk1) as (st' & Hrun & Hp' & Hk' & Ht').
    exists st'. split_and!; [done..|lia|lia].
Qed.

Lemma sample_loop_any (n : nat) (g : G) :
  corpus ≠ [] →
  ∃ st,
    sample_loop corpus d n g = inr st
    ∧ s_page st ∈ keys corpus
    ∧ keys (s_samples st) = keys corpus
    ∧ (total_visits (s_samples st) ≤ n)%nat.
Proof.
  intros Hne. unfold sample_loop.
  destruct (randrange_ok (length corpus) g) as (i & g' & -> & Hi & _).
  { destruct corpus; [done|simpl; lia]. }
  cbn [mbind result_bind]. unfold list_get.
  destruct (lookup_lt_is_Some_2 (keys corpus) i) as [page Hpage];
    [by rewrite length_keys|].
  rewrite Hpage. cbn [mbind result_bind mret result_ret].
  rewrite dict_comprehension_fmap by done.
  destruct (sample_steps_any n 0
              (Sampler page ((λ k, (k, 0%nat)) <$> keys corpus) g'))
    as (st & Hrun & Hp & Hk & Ht).
  - cbn [s_page]. by eapply list_elem_of_lookup_2.
  - cbn [s_samples]. by rewrite keys_tabulate.
  - exists st. split_and!; [done..|].
    cbn [s_samples] in Ht. rewrite total_visits_tabulate in Ht. lia.
Qed.
End sampling_outcomes.

(** On any non-empty corpus the sampling loop never raises: it ends with
    a counter for every page, and since an iteration increments at most
    one counter the counts add up to [n] at most.  [sample_pagerank] then
    raises [ZeroDivisionError] when no iteration selected a page, and
    otherwise returns a distribution over the pages of the corpus whose
    values are not negative and add up to 100. *)
Theorem sample_pagerank_outcomes {G : Type} `{RandomSource G}
    (corpus : corpus_t) (d : Qc) (n : nat) (g : G)
    (Hwf : dict_wf corpus) (Hne : corpus ≠ []) :
  ∃ st,
    sample_loop corpus d n g = inr st
    ∧ keys (s_samples st) = keys corpus
    ∧ (total_visits (s_samples st) ≤ n)%nat
    ∧ if decide (total_visits (s_samples st) = 0%nat)
      then sample_pagerank corpus d n g = raise ZeroDivisionError
      else ∃ dist,
             sample_pagerank corpus d n g = inr dist
             ∧ keys dist = keys corpus
             ∧ sum (values dist) = Qc_of_nat 100
             ∧ Forall (λ v, 0 ≤ v) (values dist).
Proof.
  destruct (sample_loop_any corpus d Hwf n g Hne) as (st & Hrun & _ & Hk & Ht).
  exists st. split_and!; [done..|].
  unfold sample_pagerank. rewrite Hrun. cbn [mbind result_bind].
  assert (dict_wf (s_samples st)) as Hswf by (unfold dict_wf; by rewrite Hk).
  case_decide as Hz.
  - apply normalize_zero.
    + intros Hnil. destruct corpus; [done|].
      apply (f_equal keys) in Hnil. rewrite keys_counts, Hk in Hnil. done.
    + by rewrite sum_counts, Hz, Qc_of_nat_0.
  - destruct (normalize_counts (s_samples st) Hswf) as (dist & Hd & Hdk & Hds & Hdp);
      [lia|].
    exists dist. split_and!; [done| |done|done]. by rewrite Hdk.
Qed.

Lemma sample_pagerank_outcomes_witness :
  dict_wf corpus_foreign ∧ corpus_foreign ≠ []
  ∧ ∃ st,
      sample_loop corpus_foreign (q 85 100) 3
        (Tape [1%nat] [q 1 2; q 1 10; q 9 10]) = inr st
      ∧ keys (s_samples st) = keys corpus_foreign
      ∧ (total_visits (s_samples st) ≤ 3)%nat
      ∧ if decide (total_visits (s_samples st) = 0%nat)
        then sample_pagerank corpus_foreign (q 85 100) 3
               (Tape [1%nat] [q 1 2; q 1 10; q 9 10]) = raise ZeroDivisionError
        else ∃ dist,
               sample_pagerank corpus_foreign (q 85 100) 3
                 (Tape [1%nat] [q 1 2; q 1 10; q 9 10]) = inr dist
               ∧ keys dist = keys corpus_foreign
               ∧ sum (values dist) = Qc_of_nat 100
               ∧ Forall (λ v, 0 ≤ v) (values dist).
Proof.
  assert (dict_wf corpus_foreign) as Hwf by (unfold dict_wf; compute_done).
  assert (corpus_foreign ≠ []) as Hne by done.
  split; [exact Hwf|]. split; [exact Hne|].
  exact (sample_pagerank_outcomes corpus_foreign (q 85 100) 3
           (Tape [1%nat] [q 1 2; q 1 10; q 9 10]) Hwf Hne).
Defined.

(** With [n = 0] no page is sampled, every counter is zero, and
    [sample_pagerank] raises [ZeroDivisionError] on every non-empty
    corpus. *)
Theorem sample_pagerank_no_samples {G : Type} `{RandomSource G}
    (corpus : corpus_t) (d : Qc) (g : G)
    (Hwf : dict_wf corpus) (Hne : corpus ≠ []) :
  sample_pagerank corpus d 0 g = raise ZeroDivisionError.
Proof.
  destruct (sample_loop_any corpus d Hwf 0 g Hne) as (st & Hrun & _ & Hk & Ht).
  unfold sample_pagerank. rewrite Hrun. cbn [mbind result_bind].
  apply normalize_zero.
  - intros Hnil. destruct corpus; [done|].
    apply (f_equal keys) in Hnil. rewrite keys_counts, Hk in Hnil. done.
  - rewrite sum_counts. replace (total_visits (s_samples st)) with 0%nat by lia.
    apply Qc_of_nat_0.
Qed.

Lemma sample_pagerank_no_samples_witness :
  dict_wf corpus3 ∧ corpus3 ≠ []
  ∧ sample_pagerank corpus3 (q 85 100) 0 (Tape [1%nat] []) = raise ZeroDivisionError.
Proof.
  assert (corpus3 ≠ []) as Hne by done.
  split; [exact corpus3_wf|]. split; [exact Hne|].
  exact (sample_pagerank_no_samples corpus3 (q 85 100) (Tape [1%nat] [])
           corpus3_wf Hne).
Defined.

(** ** iterate_pagerank: safety and fixed points *)

(** For a damping factor of [0, 1) and a non-empty corpus,
    [iterate_pagerank] never raises: as long as the loop has not ended
    there is no result, and when it ends the result is a distribution over
    the pages of the corpus whose values are positive and add up to 100. *)
Theorem iterate_pagerank_never_raises `{SetOrder} (fuel : nat)
    (corpus : corpus_t) (d : Qc)
    (Hwf : dict_wf corpus) (Hne : corpus ≠ []) (Hd0 : 0 ≤ d) (Hd1 : d < 1) :
  iterate_pagerank fuel corpus d = None
  ∨ ∃ r,
      iterate_pagerank fuel corpus d = Some (inr r)
      ∧ keys r = keys corpus
      ∧ sum (values r) = Qc_of_nat 100
      ∧ all_pos r.
Proof.
  rewrite iterate_pagerank_rounds by done.
  destruct (spec_rounds fuel corpus d (spec_initial corpus)) as [ranks|] eqn:Hrun;
    [right|by left].
  destruct (spec_rounds_pos corpus d Hne Hd0 Hd1 fuel (spec_initial corpus) ranks)
    as [Hk Hpos];
    [by unfold spec_initial; rewrite keys_tabulate|by apply spec_initial_pos|done|].
  pose proof (final_ranks_total_pos corpus d Hne Hd0 Hd1 fuel ranks Hrun) as Ht.
  assert (sum (values ranks) ≠ 0) as Htz.
  { intros Hz. rewrite Hz in Ht. by apply Qclt_not_eq in Ht. }
  assert (dict_wf ranks) as Hrwf by (unfold dict_wf; by rewrite Hk).
  eexists. cbn [fmap option_fmap option_map].
  split; [by rewrite normalize_ok|].
  split; [by rewrite keys_tabulate|].
  split; [by eapply normalize_sum; [..|by apply normalize_ok]|].
  unfold all_pos. rewrite values_tabulate.
  apply Forall_fmap, Forall_forall. intros k Hkin. simpl.
  apply Qcmult_pos_pos; [|apply Qc_of_nat_pos; lia].
  apply Qcmult_pos_pos; [by apply rank_of_pos|by apply Qcinv_pos].
Qed.

Lemma iterate_pagerank_never_raises_witness :
  dict_wf corpus3 ∧ corpus3 ≠ [] ∧ 0 ≤ q 85 100 ∧ q 85 100 < 1
  ∧ (iterate_pagerank 40 corpus3 (q 85 100) = None
     ∨ ∃ r,
         iterate_pagerank 40 corpus3 (q 85 100) = Some (inr r)
         ∧ keys r = keys corpus3
         ∧ sum (values r) = Qc_of_nat 100
         ∧ all_pos r).
Proof.
  assert (corpus3 ≠ []) as Hne by done.
  assert (0 ≤ q 85 100) as Hd0 by compute_done.
  assert (q 85 100 < 1) as Hd1 by compute_done.
  split; [exact corpus3_wf|]. split; [exact Hne|].
  split; [exact Hd0|]. split; [exact Hd1|].
  exact (iterate_pagerank_never_raises 40 corpus3 (q 85 100)
           corpus3_wf Hne Hd0 Hd1).
Defined.

Lemma sum_const {A : Type} (c : Qc) (xs : list A) :
  sum ((λ _, c) <$> xs) = Qc_of_nat (length xs) * c.
Proof.
  induction xs as [|x xs IH]; csimpl.
  - rewrite sum_nil, Qc_of_nat_0. ring.
  - rewrite sum_cons, IH, Qc_of_nat_S. ring.
Qed.

Lemma rank_of_spec_initial (corpus : corpus_t) (p : string) :
  p ∈ keys corpus →
  rank_of (spec_initial corpus) p = 1 / Qc_of_nat (length corpus).
Proof.
  intros Hp. unfold rank_of, spec_initial. by rewrite dict_get_tabulate.
Qed.

Section fixed_point.
Context `{SetOrder}.
Context (corpus : corpus_t) (d : Qc) (Hwf : dict_wf corpus) (Hne : corpus ≠ []).

Lemma length_nonzero : Qc_of_nat (length corpus) ≠ 0.
Proof. apply Qc_of_nat_nonzero. destruct corpus; [done|simpl; lia]. Qed.

Lemma normalize_spec_initial :
  normalize (spec_initial corpus) = inr (uniform_percent corpus).
Proof.
  pose proof length_nonzero as HN.
  assert (sum (values (spec_initial corpus)) = 1) as Hsum.
  { unfold spec_initial. rewrite values_tabulate, sum_const, length_keys. by field. }
  assert (keys (spec_initial corpus) = keys corpus) as Hkeys
    by (unfold spec_initial; by rewrite keys_tabulate).
  rewrite normalize_ok.
  - rewrite Hsum, Hkeys.
    unfold uniform_percent. f_equal. apply list_fmap_ext.
    intros i k Hk%list_elem_of_lookup_2. f_equal.
    rewrite rank_of_spec_initial by done. by field.
  - unfold dict_wf, spec_initial. by rewrite keys_tabulate.
  - rewrite Hsum. done.
Qed.

(** When the update rule maps the initial ranks to themselves, the first
    round commits nothing and the result is uniform. *)
Lemma fixed_point_uniform (fuel : nat) :
  (∀ p, p ∈ keys corpus →
        spec_update corpus d (spec_initial corpus) p
        = 1 / Qc_of_nat (length corpus)) →
  iterate_pagerank (S fuel) corpus d = Some (inr (uniform_percent corpus)).
Proof.
  intros Hfix. rewrite iterate_pagerank_rounds by done.
  cbn [spec_rounds].
  assert ((spec_round corpus d (spec_initial corpus)).2 = false) as Hflag.
  { simpl. apply bool_decide_eq_false_2. rewrite Exists_exists.
    intros (p & Hp & Hex). rewrite rank_of_spec_initial, Hfix in Hex by done.
    by apply not_exceeds_same in Hex. }
  destruct (spec_round corpus d (spec_initial corpus)) as [ranks' flag].
  simpl in Hflag. subst flag. cbn [fmap option_fmap option_map].
  by rewrite normalize_spec_initial.
Qed.
End fixed_point.

(** With damping factor 0 every candidate is [1/N], the initial rank: on
    every non-empty corpus [iterate_pagerank] stops at its first round and
    returns the uniform distribution [100/N]. *)
Theorem iterate_pagerank_no_damping `{SetOrder} (fuel : nat) (corpus : corpus_t)
    (Hwf : dict_wf corpus) (Hne : corpus ≠ []) :
  iterate_pagerank (S fuel) corpus 0 = Some (inr (uniform_percent corpus)).
Proof.
  apply fixed_point_uniform; [done..|]. intros p _. unfold spec_update.
  field. by apply length_nonzero.
Qed.

Lemma iterate_pagerank_no_damping_witness :
  dict_wf corpus3 ∧ corpus3 ≠ []
  ∧ iterate_pagerank 1 corpus3 0 = Some (inr (uniform_percent corpus3)).
Proof.
  assert (corpus3 ≠ []) as Hne by done.
  split; [exact corpus3_wf|]. split; [exact Hne|].
  exact (iterate_pagerank_no_damping 0 corpus3 corpus3_wf Hne).
Defined.

(** On a balanced corpus, such as one in which every page links to every
    other page, the initial ranks are a fixed point of the update rule for
    every damping factor: [iterate_pagerank] stops at its first round and
    returns the uniform distribution [100/N]. *)
Theorem iterate_pagerank_balanced `{SetOrder} (fuel : nat) (corpus : corpus_t)
    (d : Qc)
    (Hwf : dict_wf corpus) (Hne : corpus ≠ []) (Hbal : balanced corpus) :
  iterate_pagerank (S fuel) corpus d = Some (inr (uniform_percent corpus)).
Proof.
  apply fixed_point_uniform; [done..|]. intros p Hp. unfold spec_update.
  unfold balanced in Hbal. rewrite Forall_forall in Hbal. specialize (Hbal p Hp).
  rewrite (list_fmap_ext _
             (λ q, 1 / Qc_of_nat (size (links_of corpus q))
                   * (1 / Qc_of_nat (length corpus))) (inbound corpus p)).
  - rewrite sum_scale, Hbal. field. by apply length_nonzero.
  - intros i x Hx%list_elem_of_lookup_2. apply elem_of_inbound in Hx as [Hx Hpx].
    rewrite rank_of_spec_initial by done. unfold Qcdiv. ring.
Qed.

Lemma corpus_complete_wf : dict_wf corpus_complete.
Proof. unfold dict_wf. compute_done. Qed.

Lemma corpus_complete_balanced : balanced corpus_complete.
Proof. unfold balanced. compute_done. Qed.

Lemma iterate_pagerank_balanced_witness :
  dict_wf corpus_complete ∧ corpus_complete ≠ [] ∧ balanced corpus_complete
  ∧ iterate_pagerank 1 corpus_complete (q 85 100)
    = Some (inr (uniform_percent corpus_complete)).
Proof.
  assert (corpus_complete ≠ []) as Hne by done.
  split; [exact corpus_complete_wf|]. split; [exact Hne|].
  split; [exact corpus_complete_balanced|].
  exact (iterate_pagerank_balanced 0 corpus_complete (q 85 100)
           corpus_complete_wf Hne corpus_complete_balanced).
Defined.

(** ** crawl *)

Lemma keys_dict_set {V : Type} (d : dict V) (k : string) (v : V) :
  keys (dict_set d k v) = if decide (k ∈ keys d) then keys d else keys d ++ [k].
Proof.
  case_decide as Hk.
  - by apply keys_dict_set_in.
  - rewrite dict_set_notin by done. unfold keys. by rewrite fmap_app.
Qed.

Lemma dict_wf_set {V : Type} (d : dict V) (k : string) (v : V) :
  dict_wf d → dict_wf (dict_set d k v).
Proof.
  unfold dict_wf. rewrite keys_dict_set. case_decide as Hk; [done|].
  intros Hnd. apply NoDup_app. split_and!; [done| |apply NoDup_singleton].
  intros x Hx ->%list_elem_of_singleton. done.
Qed.

Section crawl_facts.
Context (findall : string → list string).

Lemma crawl_extract_snoc (directory : list (string * string))
    (filename contents : string) :
  crawl_extract findall (directory ++ [(filename, contents)])
  = if endswith filename ".html"
    then dict_set (crawl_extract findall directory) filename
           (list_to_set (findall contents) ∖ {[filename]})
    else crawl_extract findall directory.
Proof. unfold crawl_extract. by rewrite foldl_snoc. Qed.

Lemma crawl_extract_spec (directory : list (string * string)) :
  dict_wf (crawl_extract findall directory)
  ∧ (∀ p, p ∈ keys (crawl_extract findall directory)
          ↔ ∃ contents, (p, contents) ∈ directory ∧ endswith p ".html" = true)
  ∧ (∀ p, p ∉ links_of (crawl_extract findall directory) p).
Proof.
  induction directory as [|[f c] directory (IHwf & IHk & IHs)] using rev_ind.
  - split_and!.
    + unfold dict_wf. simpl. constructor.
    + intros p. split; [by intros ?%not_elem_of_nil|].
      by intros (? & ?%not_elem_of_nil & _).
    + intros p. by rewrite links_of_notin by apply not_elem_of_nil.
  - rewrite crawl_extract_snoc. destruct (endswith f ".html") eqn:Hf.
    + split_and!.
      * by apply dict_wf_set.
      * intros p. rewrite keys_dict_set. setoid_rewrite elem_of_app.
        setoid_rewrite list_elem_of_singleton.
        case_decide as Hin.
        -- rewrite IHk. split; [naive_solver|].
           intros (c' & [Hc'|[= -> ->]] & Hp); [naive_solver|].
           by apply IHk.
        -- rewrite elem_of_app, list_elem_of_singleton, IHk. naive_solver.
      * intros p. rewrite links_of_set. case_decide; [set_solver|apply IHs].
    + split_and!; [done| |done].
      intros p. rewrite IHk. setoid_rewrite elem_of_app.
      setoid_rewrite list_elem_of_singleton. split; [naive_solver|].
      intros (c' & [Hc'|[= -> ->]] & Hp); [naive_solver|congruence].
Qed.

Lemma crawl_extract_links (directory : list (string * string)) :
  NoDup directory.*1 →
  ∀ p x, x ∈ links_of (crawl_extract findall directory) p
         ↔ ∃ contents, (p, contents) ∈ directory ∧ endswith p ".html" = true
                       ∧ x ∈ findall contents ∧ x ≠ p.
Proof.
  induction directory as [|[f c] directory IH] using rev_ind; intros Hnd p x.
  - rewrite links_of_notin by apply not_elem_of_nil.
    split; [set_solver|]. by intros (? & ?%not_elem_of_nil & _).
  - rewrite fmap_app in Hnd. apply NoDup_app in Hnd as (Hnd & Hdis & _).
    assert (∀ c', (f, c') ∉ directory) as Hfresh.
    { intros c' Hin. apply (Hdis f); [|simpl; set_solver].
      apply list_elem_of_fmap. by exists (f, c'). }
    rewrite crawl_extract_snoc. setoid_rewrite elem_of_app.
    setoid_rewrite list_elem_of_singleton.
    destruct (endswith f ".html") eqn:Hf.
    + rewrite links_of_set. case_decide as Hp.
      * subst p. rewrite elem_of_difference, elem_of_list_to_set, elem_of_singleton.
        split; [naive_solver|].
        intros (c' & [Hc'|[= ->]] & _ & Hx & Hne); [by apply Hfresh in Hc'|done].
      * rewrite IH by done. split; [naive_solver|].
        intros (c' & [Hc'|[= -> ->]] & Hrest); [naive_solver|done].
    + rewrite IH by done. split; [naive_solver|].
      intros (c' & [Hc'|[= -> ->]] & Hp & Hrest); [naive_solver|congruence].
Qed.

Lemma dict_mem_true {V : Type} (d : dict V) (k : string) :
  dict_mem d k = true ↔ k ∈ keys d.
Proof. unfold dict_mem. apply bool_decide_eq_true. Qed.

Lemma crawl_restrict_loop (ks : list string) (pages : corpus_t) :
  (∀ k, k ∈ ks → k ∈ keys pages) →
  ∃ pages',
    for_each ks
      (λ pages filename,
         links ← dict_get pages filename;
         mret (dict_set pages filename
                 (filter (λ link, dict_mem pages link = true) links)))
      pages = inr pages'
    ∧ keys pages' = keys pages
    ∧ ∀ p x, x ∈ links_of pages' p
             ↔ x ∈ links_of pages p ∧ (p ∈ ks → x ∈ keys pages).
Proof.
  revert pages. induction ks as [|f ks IH]; intros pages Hks.
  - exists pages. split_and!; [done..|]. intros p x. set_solver.
  - cbn [for_each]. rewrite (links_of_get pages f) by set_solver.
    cbn [mbind result_bind mret result_ret].
    set (pages1 := dict_set pages f
                     (filter (λ link, dict_mem pages link = true) (links_of pages f))).
    assert (keys pages1 = keys pages) as Hk1
      by (apply keys_dict_set_in; set_solver).
    destruct (IH pages1) as (pages' & Hrun & Hk' & Hl'); [by rewrite Hk1; set_solver|].
    exists pages'. split_and!; [done|congruence|]. intros p x.
    rewrite Hl', Hk1. unfold pages1. rewrite links_of_set, elem_of_cons.
    case_decide as Hp.
    + subst p. rewrite elem_of_filter, dict_mem_true. naive_solver.
    + naive_solver.
Qed.

Lemma crawl_spec (directory : list (string * string)) :
  ∃ corpus,
    crawl findall directory = inr corpus
    ∧ keys corpus = keys (crawl_extract findall directory)
    ∧ ∀ p x, x ∈ links_of corpus p
             ↔ x ∈ links_of (crawl_extract findall directory) p
               ∧ x ∈ keys corpus.
Proof.
  unfold crawl, crawl_restrict.
  destruct (crawl_restrict_loop (keys (crawl_extract findall directory))
              (crawl_extract findall directory)) as (corpus & Hrun & Hk & Hl); [done|].
  exists corpus. split_and!; [done..|]. intros p x. rewrite Hl, Hk.
  split; [|naive_solver]. intros [Hx Hin]. split; [done|]. apply Hin.
  destruct (decide (p ∈ keys (crawl_extract findall directory))) as [|Hp]; [done|].
  rewrite links_of_notin in Hx by done. set_solver.
Qed.
End crawl_facts.

Lemma crawl_corpus_invariants_aux (findall : string → list string)
    (directory : list (string * string)) :
  ∃ corpus,
    crawl findall directory = inr corpus
    ∧ dict_wf corpus ∧ links_closed corpus.
Proof.
  destruct (crawl_spec findall directory) as (corpus & Hrun & Hk & Hl).
  destruct (crawl_extract_spec findall directory) as (Hwf & _ & _).
  exists corpus. split_and!; [done| |].
  - unfold dict_wf. by rewrite Hk.
  - intros p x Hx. by apply Hl in Hx as [_ ?].
Qed.

(** [crawl] never raises, whatever the directory holds and whatever the
    links found in the files, and it establishes the invariants of a
    corpus: no page is listed twice, the pages are exactly the files whose
    name ends with [.html], every link target is a page of the corpus, and
    no page links to itself. *)
Theorem crawl_corpus_invariants (findall : string → list string)
    (directory : list (string * string)) :
  ∃ corpus,
    crawl findall directory = inr corpus
    ∧ dict_wf corpus
    ∧ (∀ p, p ∈ keys corpus
            ↔ ∃ contents, (p, contents) ∈ directory ∧ endswith p ".html" = true)
    ∧ links_closed corpus
    ∧ ∀ p, p ∉ links_of corpus p.
Proof.
  destruct (crawl_spec findall directory) as (corpus & Hrun & Hk & Hl).
  destruct (crawl_extract_spec findall directory) as (Hwf & Hkeys & Hself).
  exists corpus. split_and!.
  - done.
  - unfold dict_wf. by rewrite Hk.
  - intros p. by rewrite Hk.
  - intros p x Hx. by apply Hl in Hx as [_ ?].
  - intros p Hp. apply Hl in Hp as [Hp _]. by apply Hself in Hp.
Qed.

(** In a directory, where no name occurs twice, the links that [crawl]
    gives to a page are exactly the targets found in its file that are
    other pages of the corpus. *)
Theorem crawl_links (findall : string → list string)
    (directory : list (string * string)) (Hnames : NoDup directory.*1) :
  ∃ corpus,
    crawl findall directory = inr corpus
    ∧ ∀ p x, x ∈ links_of corpus p
             ↔ ∃ contents, (p, contents) ∈ directory
                           ∧ endswith p ".html" = true
                           ∧ x ∈ findall contents ∧ x ≠ p ∧ x ∈ keys corpus.
Proof.
  destruct (crawl_spec findall directory) as (corpus & Hrun & Hk & Hl).
  exists corpus. split; [done|]. intros p x.
  rewrite Hl, (crawl_extract_links findall directory Hnames). naive_solver.
Qed.

Lemma crawl_links_witness :
  let findall := λ contents : string, [contents; "x.html"] in
  let directory := [("1.html", "2.html"); ("2.html", "1.html");
                    ("3.html", "3.html"); ("r.txt", "1.html")] in
  NoDup directory.*1
  ∧ ∃ corpus,
      crawl findall directory = inr corpus
      ∧ ∀ p x, x ∈ links_of corpus p
               ↔ ∃ contents, (p, contents) ∈ directory
                             ∧ endswith p ".html" = true
                             ∧ x ∈ findall contents ∧ x ≠ p ∧ x ∈ keys corpus.
Proof.
  intros findall directory.
  assert (NoDup directory.*1) as Hnames by compute_done.
  split; [exact Hnames|]. exact (crawl_links findall directory Hnames).
Defined.

(** The corpus that [crawl] returns can be handed to [transition_model]
    for any of its pages: the call returns a distribution over the pages of
    the corpus whose values add up to 1 when the page kept a link, and to
    [1 - d] when it kept none. *)
Theorem crawl_then_transition_model (findall : string → list string)
    (directory : list (string * string)) (corpus : corpus_t)
    (page : string) (d : Qc)
    (Hcrawl : crawl findall directory = inr corpus)
    (Hpage : page ∈ keys corpus) :
  ∃ dist,
    transition_model corpus page d = inr dist
    ∧ keys dist = keys corpus
    ∧ sum (values dist) = if decide (links_of corpus page = ∅) then 1 - d else 1.
Proof.
  destruct (crawl_corpus_invariants_aux findall directory)
    as (corpus' & Hrun & Hwf & Hcl).
  rewrite Hcrawl in Hrun. injection Hrun as <-.
  apply transition_model_sum; [done..|]. intros link. apply Hcl.
Qed.

Lemma crawl_then_transition_model_witness :
  let findall := λ contents : string, [contents; "x.html"] in
  let directory := [("1.html", "2.html"); ("2.html", "1.html");
                    ("3.html", "3.html"); ("r.txt", "1.html")] in
  let corpus := [("1.html", {["2.html"]}); ("2.html", {["1.html"]});
                 ("3.html", ∅)] in
  crawl findall directory = inr corpus
  ∧ "3.html" ∈ keys corpus
  ∧ ∃ dist,
      transition_model corpus "3.html" (q 85 100) = inr dist
      ∧ keys dist = keys corpus
      ∧ sum (values dist)
        = if decide (links_of corpus "3.html" = ∅) then 1 - q 85 100 else 1.
Proof.
  intros findall directory corpus.
  assert (crawl findall directory = inr corpus) as Hcrawl by compute_done.
  assert ("3.html" ∈ keys corpus) as Hpage by compute_done.
  split; [exact Hcrawl|]. split; [exact Hpage|].
  exact (crawl_then_transition_model findall directory corpus "3.html"
           (q 85 100) Hcrawl Hpage).
Defined.

(** ** The cumulative scan selects the first crossing *)

Lemma Qc_sub_pos_lt (x y : Qc) : ¬ x - y ≤ 0 → y < x.
Proof.
  intros Hn%Qcnot_le_lt. apply (Qcplus_lt_mono_r _ _ y) in Hn.
  by replace (0 + y) with y in Hn by ring; replace (x - y + y) with x in Hn by ring.
Qed.

Lemma Qc_lt_sub_add (a p r : Qc) : a < r - p → p + a < r.
Proof.
  intros Hlt. apply (Qcplus_lt_mono_r _ _ p) in Hlt.
  by replace (a + p) with (p + a) in Hlt by ring;
     replace (r - p + p) with r in Hlt by ring.
Qed.

(** The scan of [sample_pagerank] is sampling by the cumulative
    distribution: it selects the first page at which the running total of
    the probabilities reaches the draw, and it selects no page exactly
    when the draw is above every running total. *)
Theorem scan_first_crossing (dist : dict Qc) (ks : list string) (rnd : Qc)
    (Hks : ∀ k, k ∈ ks → k ∈ keys dist) :
  match scan dist ks rnd with
  | inr (Some key) =>
      ∃ before after,
        ks = before ++ key :: after
        ∧ rnd ≤ sum (rank_of dist <$> before ++ [key])
        ∧ ∀ j, (0 < j ≤ length before)%nat →
               sum (rank_of dist <$> take j before) < rnd
  | inr None =>
      ∀ j, (0 < j ≤ length ks)%nat → sum (rank_of dist <$> take j ks) < rnd
  | inl _ => False
  end.
Proof.
  revert rnd. induction ks as [|k ks IH]; intros rnd.
  - cbn [scan mret result_ret]. intros j Hj. simpl in Hj. lia.
  - cbn [scan]. rewrite (rank_of_get dist k) by set_solver.
    cbn [mbind result_bind]. case_decide as Hsel.
    + cbn [mret result_ret]. exists [], ks. split_and!; [done| |].
      * csimpl. rewrite sum_cons, sum_nil.
        apply Qc_sub_nonpos_inv. by replace (rank_of dist k + 0) with (rank_of dist k) by ring.
      * intros j Hj. simpl in Hj. lia.
    + apply Qc_sub_pos_lt in Hsel.
      specialize (IH (λ k' Hk', Hks k' (list_elem_of_further _ _ _ Hk'))
                    (rnd - rank_of dist k)).
      destruct (scan dist ks (rnd - rank_of dist k)) as [e|[key|]]; [done| |].
      * destruct IH as (before & after & -> & Hle & Hlt).
        exists (k :: before), after. split_and!; [done| |].
        -- rewrite <-app_comm_cons, fmap_cons, sum_cons.
           apply Qc_sub_nonpos_inv.
           replace (rnd - (rank_of dist k + sum (rank_of dist <$> before ++ [key])))
             with (rnd - rank_of dist k - sum (rank_of dist <$> before ++ [key])) by ring.
           apply Qc_sub_nonpos. exact Hle.
        -- intros [|j] Hj; [lia|]. simpl in Hj. csimpl. rewrite sum_cons.
           destruct j as [|j].
           ++ rewrite take_0, fmap_nil, sum_nil.
              by replace (rank_of dist k + 0) with (rank_of dist k) by ring.
           ++ apply Qc_lt_sub_add, Hlt. lia.
      * intros [|j] Hj; [lia|]. simpl in Hj. csimpl. rewrite sum_cons.
        destruct j as [|j].
        -- rewrite take_0, fmap_nil, sum_nil.
           by replace (rank_of dist k + 0) with (rank_of dist k) by ring.
        -- apply Qc_lt_sub_add, IH. lia.
Qed.

Lemma scan_first_crossing_witness :
  (∀ k, k ∈ ["A"; "B"; "C"] → k ∈ keys [("A", q 1 4); ("B", q 1 4); ("C", q 1 2)])
  ∧ scan [("A", q 1 4); ("B", q 1 4); ("C", q 1 2)] ["A"; "B"; "C"] (q 2 5)
    = inr (Some "B")
  ∧ match scan [("A", q 1 4); ("B", q 1 4); ("C", q 1 2)] ["A"; "B"; "C"] (q 2 5) with
    | inr (Some key) =>
        ∃ before after,
          ["A"; "B"; "C"] = before ++ key :: after
          ∧ q 2 5 ≤ sum (rank_of [("A", q 1 4); ("B", q 1 4); ("C", q 1 2)]
                           <$> before ++ [key])
          ∧ ∀ j, (0 < j ≤ length before)%nat →
                 sum (rank_of [("A", q 1 4); ("B", q 1 4); ("C", q 1 2)]
                        <$> take j before) < q 2 5
    | inr None =>
        ∀ j, (0 < j ≤ length ["A"; "B"; "C"])%nat →
             sum (rank_of [("A", q 1 4); ("B", q 1 4); ("C", q 1 2)]
                    <$> take j ["A"; "B"; "C"]) < q 2 5
    | inl _ => False
    end.
Proof.
  assert (∀ k, k ∈ ["A"; "B"; "C"]
               → k ∈ keys [("A", q 1 4); ("B", q 1 4); ("C", q 1 2)]) as Hks
    by (intros k Hk; exact Hk).
  split; [exact Hks|]. split; [compute_done|].
  exact (scan_first_crossing [("A", q 1 4); ("B", q 1 4); ("C", q 1 2)]
           ["A"; "B"; "C"] (q 2 5) Hks).
Defined.
